(** * new_alarm_cond.c: the shared alarm list, its insertion routines,
      the alarm thread, the display threads and the two group threads.

    The program keeps one singly linked list of alarms ([alarm_list]), a
    scalar [current_alarm], and an array [active_group_threads] of
    [MAX_GROUPS] flags, all protected by [alarm_mutex].  Every thread body
    in the source runs with the mutex held between two blocking calls, so
    each such block is modelled as one atomic function on the shared state.

    Conventions of the embedding:
    - the linked list is a [list alarm_t] (the [link] field is the list
      structure itself);
    - C [int] and [time_t] values are integers in [Z]; the only arithmetic
      the program performs on them is [time(NULL) + seconds], a 64-bit
      [time_t] plus a 32-bit [int], which stays far from the type's limits;
    - what the environment decides (the clock, whether [malloc] or
      [pthread_create] succeed, the status of a condition wait) is an
      explicit argument of the function that asks for it;
    - the locking and signalling calls on the statically initialised
      [alarm_mutex] and [alarm_cond] return 0, so the [err_abort] branches
      behind them are not represented;
    - indexing [active_group_threads] or [groups_to_remove] outside
      [0 .. MAX_GROUPS-1] is undefined behaviour in C and is the outcome
      [Undefined] here;
    - text written to the terminal is recorded as a list of typed lines
      (time stamps and thread identifiers are left out). *)

From Stdlib Require Import ZArith List Sorted Lia.
From stdpp Require Import base numbers list strings.
Import ListNotations.
Local Open Scope Z_scope.

(** ** Data *)

(** [alarm_t] without its [link] field. *)
Record alarm_t : Type := mk_alarm {
  seconds : Z;
  time : Z;
  message : string;
  id : Z;
  groupId : Z
}.

Definition MAX_GROUPS : Z := 256.

(** The request forms [main] tells apart with its chain of [sscanf] calls.
    [Unrecognized] is any other non-empty line, [Blank] a line with
    [strlen (input) <= 1], [End_Of_Input] is [fgets] returning [NULL]. *)
Inductive request : Type :=
| Start_Alarm (alarm_id group_id time : Z) (message : string)
| Change_Alarm (alarm_id group_id time : Z) (message : string)
| Cancel_Alarm (alarm_id : Z)
| Suspend_Alarm (alarm_id : Z)
| Reactivate_Alarm (alarm_id : Z)
| View_Alarms
| Unrecognized
| Blank
| End_Of_Input.

(** Lines written to stdout and stderr. *)
Inductive output : Type :=
| invalid_request
| alloc_error
| create_error (group_id : Z)
| alarm_inserted (id groupId seconds : Z) (message : string)
| alarm_expired (seconds : Z) (message : string)
| alarm_printed (id groupId seconds : Z) (message : string)
| thread_created (id group_id seconds : Z) (message : string)
| thread_assigned (id group_id seconds : Z) (message : string)
| thread_removed (group_id : Z)
| request_echo (r : request)
| view_header
| view_thread (group_id : Z)
| view_alarm (count id : Z) (message : string)
| view_no_alarms.

(** Calls that wake waiters of [alarm_cond]. *)
Inductive cond_op : Type :=
| pthread_cond_signal
| pthread_cond_broadcast.

(** The globals of the program, the record of calls on [alarm_cond], the
    terminal, and the display threads that have been created.  A display
    thread is recorded by the [group_id] it was started with;
    [display_alarm_thread] is a [while (1)] loop without [break] or
    [return], so a thread once created stays in [display_threads]. *)
Record state : Type := mk_state {
  alarm_list : list alarm_t;
  current_alarm : Z;
  active_group_threads : list Z;
  display_threads : list Z;
  alarm_cond : list cond_op;
  console : list output
}.

Definition initial_state : state :=
  {| alarm_list := [];
     current_alarm := 0;
     active_group_threads := replicate (Z.to_nat MAX_GROUPS) 0;
     display_threads := [];
     alarm_cond := [];
     console := [] |}.

Definition set_alarm_list (l : list alarm_t) (s : state) : state :=
  {| alarm_list := l;
     current_alarm := current_alarm s;
     active_group_threads := active_group_threads s;
     display_threads := display_threads s;
     alarm_cond := alarm_cond s;
     console := console s |}.

Definition set_current_alarm (t : Z) (s : state) : state :=
  {| alarm_list := alarm_list s;
     current_alarm := t;
     active_group_threads := active_group_threads s;
     display_threads := display_threads s;
     alarm_cond := alarm_cond s;
     console := console s |}.

Definition set_active_group_threads (a : list Z) (s : state) : state :=
  {| alarm_list := alarm_list s;
     current_alarm := current_alarm s;
     active_group_threads := a;
     display_threads := display_threads s;
     alarm_cond := alarm_cond s;
     console := console s |}.

Definition start_display_thread (group_id : Z) (s : state) : state :=
  {| alarm_list := alarm_list s;
     current_alarm := current_alarm s;
     active_group_threads := active_group_threads s;
     display_threads := display_threads s ++ [group_id];
     alarm_cond := alarm_cond s;
     console := console s |}.

Definition notify (op : cond_op) (s : state) : state :=
  {| alarm_list := alarm_list s;
     current_alarm := current_alarm s;
     active_group_threads := active_group_threads s;
     display_threads := display_threads s;
     alarm_cond := alarm_cond s ++ [op];
     console := console s |}.

Definition print (o : output) (s : state) : state :=
  {| alarm_list := alarm_list s;
     current_alarm := current_alarm s;
     active_group_threads := active_group_threads s;
     display_threads := display_threads s;
     alarm_cond := alarm_cond s;
     console := console s ++ [o] |}.

(** How a block of code ends: it returns, the process ends ([exit] with a
    status, or [abort] from [errno_abort]), or it indexes an array out of
    bounds. *)
Inductive outcome (A : Type) : Type :=
| Ok (a : A)
| Exited (status : Z) (a : A)
| Aborted (a : A)
| Undefined.
Arguments Ok {A} a.
Arguments Exited {A} status a.
Arguments Aborted {A} a.
Arguments Undefined {A}.

(** Reading and writing a cell of an [int x[MAX_GROUPS]] array at a C
    index; [None] is an access outside the array. *)
Definition array_get (arr : list Z) (i : Z) : option Z :=
  if decide (0 <= i < MAX_GROUPS) then arr !! Z.to_nat i else None.

Definition array_set (arr : list Z) (i : Z) (v : Z) : option (list Z) :=
  if decide (0 <= i < MAX_GROUPS)
  then (if decide (Z.to_nat i < length arr)%nat
        then Some (<[Z.to_nat i := v]> arr) else None)
  else None.

(** ** insert_alarm (lines 51-92) *)

(** The [while] loop of lines 76-81: [rest] is the chain behind
    [current->link]; the new alarm goes in front of the first element
    whose id is not below the new one. *)
Fixpoint link_after (new_alarm : alarm_t) (rest : list alarm_t) : list alarm_t :=
  match rest with
  | [] => [new_alarm]
  | next :: rest' =>
      if id next <? id new_alarm
      then next :: link_after new_alarm rest'
      else new_alarm :: rest
  end.

(** Lines 72-82. *)
Definition insert_by_id (new_alarm : alarm_t) (l : list alarm_t) : list alarm_t :=
  match l with
  | [] => [new_alarm]
  | head :: rest =>
      if id head >? id new_alarm
      then new_alarm :: l
      else head :: link_after new_alarm rest
  end.

(** [strncpy (dst, message, 63)] followed by [dst[63] = 0]. *)
Definition truncate_message (m : string) : string := String.substring 0 63 m.

(** [malloc_ok] is whether the [malloc] of line 53 succeeds, [now] the
    value of [time(NULL)] at line 63. *)
Definition insert_alarm (malloc_ok : bool) (now : Z)
    (id groupId seconds : Z) (message : string) (s : state) : state :=
  if malloc_ok then
    let new_alarm :=
      {| seconds := seconds; time := now + seconds;
         message := truncate_message message; id := id; groupId := groupId |} in
    print (alarm_inserted id groupId seconds (truncate_message message))
      (set_alarm_list (insert_by_id new_alarm (alarm_list s)) s)
  else print alloc_error s.

(** ** alarm_insert (lines 98-148) *)

(** Lines 109-128: the alarm goes in front of the first element whose
    time is not below its own, or at the end. *)
Fixpoint insert_by_time (alarm : alarm_t) (l : list alarm_t) : list alarm_t :=
  match l with
  | [] => [alarm]
  | next :: rest =>
      if time next >=? time alarm
      then alarm :: l
      else next :: insert_by_time alarm rest
  end.

Definition alarm_insert (alarm : alarm_t) (s : state) : state :=
  let s := set_alarm_list (insert_by_time alarm (alarm_list s)) s in
  if (current_alarm s =? 0) || (time alarm <? current_alarm s)
  then notify pthread_cond_signal (set_current_alarm (time alarm) s)
  else s.

(** ** alarm_thread (lines 153-212) *)

(** Status of [pthread_cond_wait] / [pthread_cond_timedwait]: 0 or
    [ETIMEDOUT]. *)
Inductive wait_status : Type :=
| woken
| ETIMEDOUT.

(** Where the alarm thread stands between two atomic blocks: at the top
    of its [while (1)] body, blocked in [pthread_cond_wait] (line 177), or
    blocked in [pthread_cond_timedwait] (line 194) holding the alarm it
    took off the list. *)
Inductive alarm_thread_pc : Type :=
| loop_top
| in_cond_wait
| in_cond_timedwait (alarm : alarm_t).

Definition expired_line (alarm : alarm_t) : output :=
  alarm_expired (seconds alarm) (message alarm).

(** Lines 176-210 once the list is known: wait if it is empty, otherwise
    unlink the head and either start the timed wait or report the alarm. *)
Definition take_head (now : Z) (s : state) : alarm_thread_pc * state :=
  match alarm_list s with
  | [] => (in_cond_wait, s)
  | alarm :: link =>
      let s := set_alarm_list link s in
      if time alarm >? now
      then (in_cond_timedwait alarm, set_current_alarm (time alarm) s)
      else (loop_top, print (expired_line alarm) s)
  end.

(** One atomic block of the alarm thread.  [status] is what the wait it
    was blocked in returned, [now] the value of [time(NULL)] at line 183. *)
Definition alarm_thread_step (status : wait_status) (now : Z)
    (st : alarm_thread_pc * state) : alarm_thread_pc * state :=
  let (pc, s) := st in
  match pc with
  | loop_top => take_head now (set_current_alarm 0 s)
  | in_cond_wait => take_head now s
  | in_cond_timedwait alarm =>
      match status with
      | ETIMEDOUT => (loop_top, print (expired_line alarm) s)
      | woken =>
          if current_alarm s =? time alarm
          then (in_cond_timedwait alarm, s)
          else (loop_top, alarm_insert alarm s)
      end
  end.

Fixpoint alarm_thread_run (evs : list (wait_status * Z))
    (st : alarm_thread_pc * state) : alarm_thread_pc * state :=
  match evs with
  | [] => st
  | (status, now) :: evs' => alarm_thread_run evs' (alarm_thread_step status now st)
  end.

(** ** display_alarm_thread (lines 215-246) *)

Definition set_time (t : Z) (a : alarm_t) : alarm_t :=
  {| seconds := seconds a; time := t; message := message a;
     id := id a; groupId := groupId a |}.

Definition printed_line (a : alarm_t) : output :=
  alarm_printed (id a) (groupId a) (seconds a) (message a).

(** The traversal of lines 224-239.  [clock k] is the value of the k-th
    call of [time(NULL)] made during the pass and [tick] the number of
    calls made so far: the test of line 226 reads the clock only when the
    group matches, [get_current_time] reads it once more, line 235 a third
    time. *)
Fixpoint display_scan (group_id : Z) (clock : nat -> Z) (tick : nat)
    (l : list alarm_t) : list alarm_t * list output :=
  match l with
  | [] => ([], [])
  | current :: link =>
      if groupId current =? group_id then
        if clock tick >=? time current then
          let (l', out) := display_scan group_id clock (tick + 3) link in
          (set_time (clock (tick + 2)%nat + seconds current) current :: l',
           printed_line current :: out)
        else
          let (l', out) := display_scan group_id clock (tick + 1) link in
          (current :: l', out)
      else
        let (l', out) := display_scan group_id clock tick link in
        (current :: l', out)
  end.

(** One iteration of the [while (1)] body, from lock to unlock. *)
Definition display_alarm_thread (group_id : Z) (clock : nat -> Z) (s : state) : state :=
  let (l', out) := display_scan group_id clock 0 (alarm_list s) in
  {| alarm_list := l';
     current_alarm := current_alarm s;
     active_group_threads := active_group_threads s;
     display_threads := display_threads s;
     alarm_cond := alarm_cond s;
     console := console s ++ out |}.

(** ** group_display_creation_thread (lines 247-301) *)

(** What [malloc] (line 261) and [pthread_create] (line 270) do for a
    group.  Within one pass a group is tried at most once (a success sets
    its flag, a failure ends the process), so asking the environment per
    group loses no behaviour. *)
Inductive spawn_result : Type :=
| malloc_fails
| pthread_create_fails
| thread_starts.

(** Lines 256-296, for the part [l] of the list still to visit. *)
Fixpoint creation_scan (sys : Z -> spawn_result) (l : list alarm_t)
    (s : state) : outcome state :=
  match l with
  | [] => Ok s
  | current :: link =>
      let group_id := groupId current in
      match array_get (active_group_threads s) group_id with
      | None => Undefined
      | Some flag =>
          if flag =? 0 then
            match sys group_id with
            | malloc_fails => Exited 1 (print alloc_error s)
            | pthread_create_fails => Exited 1 (print (create_error group_id) s)
            | thread_starts =>
                match array_set (active_group_threads s) group_id 1 with
                | None => Undefined
                | Some flags =>
                    creation_scan sys link
                      (print (thread_created (id current) group_id
                                (seconds current) (message current))
                         (set_active_group_threads flags
                            (start_display_thread group_id s)))
                end
            end
          else
            creation_scan sys link
              (print (thread_assigned (id current) group_id
                        (seconds current) (message current)) s)
      end
  end.

(** One pass of the thread after [pthread_cond_wait] returns. *)
Definition group_display_creation_thread (sys : Z -> spawn_result)
    (s : state) : outcome state :=
  creation_scan sys (alarm_list s) s.

(** ** group_display_removal_thread (lines 302-337) *)

(** Lines 313-317. *)
Fixpoint mark_groups (l : list alarm_t) (groups_to_remove : list Z)
    : option (list Z) :=
  match l with
  | [] => Some groups_to_remove
  | current :: link =>
      match array_set groups_to_remove (groupId current) 1 with
      | None => None
      | Some marked => mark_groups link marked
      end
  end.

(** Lines 320-332, for the group ids [ids] still to visit. *)
Fixpoint removal_sweep (ids : list Z) (groups_to_remove : list Z)
    (s : state) : outcome state :=
  match ids with
  | [] => Ok s
  | group_id :: ids' =>
      match array_get (active_group_threads s) group_id,
            array_get groups_to_remove group_id with
      | Some flag, Some mark =>
          if (flag =? 1) && (mark =? 0) then
            match array_set (active_group_threads s) group_id 0 with
            | None => Undefined
            | Some flags =>
                removal_sweep ids' groups_to_remove
                  (print (thread_removed group_id)
                     (set_active_group_threads flags s))
            end
          else removal_sweep ids' groups_to_remove s
      | _, _ => Undefined
      end
  end.

(** The values [0, 1, ..., MAX_GROUPS - 1] of the [for] loops. *)
Definition group_ids : list Z :=
  map Z.of_nat (seq 0 (Z.to_nat MAX_GROUPS)).

(** One pass of the thread after [pthread_cond_wait] returns. *)
Definition group_display_removal_thread (s : state) : outcome state :=
  match mark_groups (alarm_list s) (replicate (Z.to_nat MAX_GROUPS) 0) with
  | None => Undefined
  | Some groups_to_remove => removal_sweep group_ids groups_to_remove s
  end.

(** ** main (lines 339-464) *)

(** Lines 441-450: the alarms of one group, numbered by [alarm_count]. *)
Fixpoint view_group (group_id : Z) (alarm_count : Z) (l : list alarm_t)
    : list output * Z :=
  match l with
  | [] => ([], alarm_count)
  | current :: link =>
      if groupId current =? group_id then
        let (out, n) := view_group group_id (alarm_count + 1) link in
        (view_alarm (alarm_count + 1) (id current) (message current) :: out, n)
      else view_group group_id alarm_count link
  end.

(** Lines 432-457, for the group ids [ids] still to visit. *)
Fixpoint view_sweep (ids : list Z) (s : state) : option (list output) :=
  match ids with
  | [] => Some []
  | group_id :: ids' =>
      match array_get (active_group_threads s) group_id, view_sweep ids' s with
      | Some flag, Some rest =>
          if flag =? 1 then
            let (out, n) := view_group group_id 0 (alarm_list s) in
            Some (view_thread group_id :: out
                    ++ (if n =? 0 then [view_no_alarms] else []) ++ rest)
          else Some rest
      | _, _ => None
      end
  end.

Definition print_all (out : list output) (s : state) : state :=
  {| alarm_list := alarm_list s;
     current_alarm := current_alarm s;
     active_group_threads := active_group_threads s;
     display_threads := display_threads s;
     alarm_cond := alarm_cond s;
     console := console s ++ out |}.

(** One iteration of the [while (1)] loop of [main] on the request read
    by [fgets] (the prompt is not recorded).  [alarm_malloc_ok] is whether
    the [malloc] of line 370 succeeds; [insert_malloc_ok] and [now] are
    passed on to [insert_alarm]. *)
Definition main_iteration (alarm_malloc_ok insert_malloc_ok : bool) (now : Z)
    (r : request) (s : state) : outcome state :=
  match r with
  | End_Of_Input => Exited 0 s
  | Blank => Ok s
  | _ =>
      if negb alarm_malloc_ok then Aborted s else
      match r with
      | Start_Alarm alarm_id group_id t m =>
          if (alarm_id <? 0) || (group_id <? 0) || (t <? 0)
          then Ok (print invalid_request s)
          else Ok (notify pthread_cond_broadcast
                     (insert_alarm insert_malloc_ok now alarm_id group_id t m
                        (print (request_echo r) s)))
      | Change_Alarm alarm_id group_id t m =>
          if (alarm_id <? 0) || (group_id <? 0) || (t <? 0)
          then Ok (print invalid_request s)
          else Ok (print (request_echo r) s)
      | Cancel_Alarm alarm_id
      | Suspend_Alarm alarm_id
      | Reactivate_Alarm alarm_id =>
          if alarm_id <? 0
          then Ok (print invalid_request s)
          else Ok (print (request_echo r) s)
      | View_Alarms =>
          match view_sweep group_ids s with
          | None => Undefined
          | Some out => Ok (print_all (view_header :: out) s)
          end
      | _ => Ok (print invalid_request s)
      end
  end.

(** ** The program as started by main

    [main] creates the creation thread and the removal thread and then
    reads requests; [alarm_thread] is never created.  A step of the whole
    program is one atomic block of one of its threads.  The two group
    threads may take a step at any moment (a condition wait may return
    without a matching wake-up); a display thread takes a step only if it
    exists. *)
Inductive event : Type :=
| main_reads (alarm_malloc_ok insert_malloc_ok : bool) (now : Z) (r : request)
| creation_wakes (sys : Z -> spawn_result)
| removal_wakes
| display_runs (group_id : Z) (clock : nat -> Z).

Definition step (e : event) (s : state) : outcome state :=
  match e with
  | main_reads a_ok i_ok now r => main_iteration a_ok i_ok now r s
  | creation_wakes sys => group_display_creation_thread sys s
  | removal_wakes => group_display_removal_thread s
  | display_runs group_id clock =>
      if decide (group_id ∈ display_threads s)
      then Ok (display_alarm_thread group_id clock s)
      else Ok s
  end.

Fixpoint run (evs : list event) (s : state) : outcome state :=
  match evs with
  | [] => Ok s
  | e :: evs' =>
      match step e s with
      | Ok s' => run evs' s'
      | stopped => stopped
      end
  end.

(** ** Orderings of the list *)

Definition sorted_by (key : alarm_t -> Z) (l : list alarm_t) : Prop :=
  Sorted (fun a b => key a <= key b) l.

(** The arguments of one call of [insert_alarm]. *)
Record insert_call : Type := mk_call {
  call_malloc_ok : bool;
  call_now : Z;
  call_id : Z;
  call_groupId : Z;
  call_seconds : Z;
  call_message : string
}.

Definition do_insert_alarm (c : insert_call) (s : state) : state :=
  insert_alarm (call_malloc_ok c) (call_now c) (call_id c) (call_groupId c)
    (call_seconds c) (call_message c) s.

(** A sequence of calls, oldest first. *)
Definition insert_alarm_seq (cs : list insert_call) (s : state) : state :=
  fold_left (fun s c => do_insert_alarm c s) cs s.

Definition alarm_insert_seq (alarms : list alarm_t) (s : state) : state :=
  fold_left (fun s a => alarm_insert a s) alarms s.

(** ** Predicates used in the statements *)

(** The requests that [main] recognises but only echoes. *)
Definition unwired (r : request) : bool :=
  match r with
  | Change_Alarm _ _ _ _ | Cancel_Alarm _ | Suspend_Alarm _ | Reactivate_Alarm _ => true
  | _ => false
  end.

(** The test of line 226 against one clock value. *)
Definition due (group_id now : Z) (a : alarm_t) : bool :=
  (groupId a =? group_id) && (now >=? time a).

(** The last line written. *)
Definition last_line (s : state) : option output := last (console s).

(** What one pass of a display thread does to one alarm when every clock
    reading of the pass is [now]. *)
Definition reschedule (group_id now : Z) (a : alarm_t) : alarm_t :=
  if due group_id now a then set_time (now + seconds a) a else a.

(** Two alarms that differ at most in [time]. *)
Definition same_but_time (a a' : alarm_t) : Prop :=
  seconds a' = seconds a /\ message a' = message a /\
  id a' = id a /\ groupId a' = groupId a.

(** The group id can index an array of [MAX_GROUPS] cells. *)
Definition in_range (a : alarm_t) : Prop := 0 <= groupId a < MAX_GROUPS.

(** The flag array has the size its declaration gives it. *)
Definition well_sized (s : state) : Prop :=
  length (active_group_threads s) = Z.to_nat MAX_GROUPS.

(** The line written to stderr when starting a thread for [g] fails. *)
Definition failure_line (r : spawn_result) (g : Z) : output :=
  match r with
  | malloc_fails => alloc_error
  | _ => create_error g
  end.

(** The alarms the alarm thread still has to report, in the order it
    will take them: the one it holds in its timed wait, then the list. *)
Definition pending (st : alarm_thread_pc * state) : list alarm_t :=
  match fst st with
  | in_cond_timedwait alarm => alarm :: alarm_list (snd st)
  | _ => alarm_list (snd st)
  end.

(** While the alarm thread is in its timed wait and nothing earlier has
    been inserted, [current_alarm] is the time of the alarm it holds
    (line 192). *)
Definition waiting_on_current (st : alarm_thread_pc * state) : Prop :=
  match fst st with
  | in_cond_timedwait alarm => current_alarm (snd st) = time alarm
  | _ => True
  end.

(** The state in which a block left the program, if it did not run into
    undefined behaviour. *)
Definition final (o : outcome state) : option state :=
  match o with
  | Ok s | Exited _ s | Aborted s => Some s
  | Undefined => None
  end.

(** The block is defined and leaves a state satisfying [P]. *)
Definition holds (P : state -> Prop) (o : outcome state) : Prop :=
  exists s, final o = Some s /\ P s.

(** The group ids on the list, in list order. *)
Definition groups (s : state) : list Z := map groupId (alarm_list s).

Definition flag (s : state) (g : Z) : option Z :=
  array_get (active_group_threads s) g.

(** Start_Alarm requests name a group below [MAX_GROUPS]. *)
Definition bounded (e : event) : Prop :=
  match e with
  | main_reads _ _ _ (Start_Alarm _ group_id _ _) => group_id < MAX_GROUPS
  | _ => True
  end.

(** What the threads started by [main] keep true as long as every group
    id is below [MAX_GROUPS]: the group ids on the list index the flag
    array, a flag of 1 belongs to a group with an alarm on the list, and
    the running display threads are, without repetition, the groups whose
    flag is 1. *)
Record consistent (s : state) : Prop := {
  c_size : well_sized s;
  c_range : Forall (fun g => 0 <= g < MAX_GROUPS) (groups s);
  c_backed : forall g, flag s g = Some 1 -> In g (groups s);
  c_threads : forall g, In g (display_threads s) <-> flag s g = Some 1;
  c_nodup : NoDup (display_threads s)
}.

(** Every group on the list [l] has a non-zero flag. *)
Definition all_flagged (l : list alarm_t) (s : state) : Prop :=
  Forall (fun a => exists v, flag s (groupId a) = Some v /\ v <> 0) l.

(** ** Further predicates *)

(** What [main] and [insert_alarm] guarantee of an alarm they put on the
    list: no negative field and a message that fits [message[64]]. *)
Definition validated (a : alarm_t) : Prop :=
  0 <= id a /\ 0 <= groupId a /\ 0 <= seconds a /\
  (String.length (message a) <= 63)%nat.

(** Every flag is 0 or 1. *)
Definition binary_flags (s : state) : Prop :=
  forall g v, flag s g = Some v -> v = 0 \/ v = 1.

(** The alarm lines View_Alarms prints for one group: the alarms of the
    group in list order, numbered from [n + 1]. *)
Definition view_listing (group_id n : Z) (l : list alarm_t) : list output :=
  imap (fun k a => view_alarm (n + Z.of_nat k + 1) (id a) (message a))
       (List.filter (fun a => groupId a =? group_id) l).

(** A sample run of the program: three requests, passes of both group
    threads and of a display thread. *)
Definition sample_events : list event :=
  [main_reads true true 1000 (Start_Alarm 7 5 10 "a");
   creation_wakes (fun _ => thread_starts);
   main_reads true true 1001 (Start_Alarm 2 5 5 "b");
   main_reads true true 1002 (Start_Alarm 3 7 0 "c");
   creation_wakes (fun _ => thread_starts);
   removal_wakes;
   display_runs 5 (fun _ => 1011);
   main_reads true true 1012 (Cancel_Alarm 2);
   main_reads true true 1012 View_Alarms].

(** What View_Alarms prints for one group id: nothing unless the group's
    flag is 1; otherwise the thread line, the alarms of the group, and
    the "no alarms" line when there are none. *)
Definition view_block (s : state) (group_id : Z) : list output :=
  if decide (flag s group_id = Some 1) then
    view_thread group_id
      :: view_listing group_id 0 (alarm_list s)
      ++ match List.filter (fun a => groupId a =? group_id) (alarm_list s) with
         | [] => [view_no_alarms]
         | _ :: _ => []
         end
  else [].

(** * Properties *)

(** ** The order kept by the two insertion routines *)

Section Ordering.

Variable key : alarm_t -> Z.

Lemma sorted_by_cons_inv (a : alarm_t) (l : list alarm_t) :
  sorted_by key (a :: l) -> sorted_by key l /\ HdRel (fun a b => key a <= key b) a l.
Proof. intros H. inversion H; subst. split; assumption. Qed.

Lemma sorted_by_cons (a : alarm_t) (l : list alarm_t) :
  sorted_by key l -> HdRel (fun a b => key a <= key b) a l -> sorted_by key (a :: l).
Proof. intros Hs Hh. constructor; assumption. Qed.

End Ordering.

Lemma insert_by_time_hd (x alarm : alarm_t) (l : list alarm_t) :
  time x <= time alarm ->
  HdRel (fun a b => time a <= time b) x l ->
  HdRel (fun a b => time a <= time b) x (insert_by_time alarm l).
Proof.
  intros Hx Hl. destruct l as [|next rest]; simpl.
  - constructor. exact Hx.
  - destruct (time next >=? time alarm); constructor.
    + exact Hx.
    + inversion Hl; subst. assumption.
Qed.

Lemma insert_by_time_sorted (alarm : alarm_t) (l : list alarm_t) :
  sorted_by time l -> sorted_by time (insert_by_time alarm l).
Proof.
  induction l as [|next rest IH]; intros Hs; simpl.
  - repeat constructor.
  - destruct (Z.geb_spec (time next) (time alarm)) as [Hge|Hlt].
    + apply sorted_by_cons; [exact Hs | constructor; lia].
    + apply sorted_by_cons_inv in Hs as [Hrest Hhd].
      apply sorted_by_cons; [apply IH, Hrest |].
      apply insert_by_time_hd; [lia | exact Hhd].
Qed.

Lemma link_after_hd (x new_alarm : alarm_t) (rest : list alarm_t) :
  id x <= id new_alarm ->
  HdRel (fun a b => id a <= id b) x rest ->
  HdRel (fun a b => id a <= id b) x (link_after new_alarm rest).
Proof.
  intros Hx Hl. destruct rest as [|next rest']; simpl.
  - constructor. exact Hx.
  - destruct (id next <? id new_alarm); constructor.
    + inversion Hl; subst. assumption.
    + exact Hx.
Qed.

Lemma link_after_sorted (new_alarm : alarm_t) (rest : list alarm_t) :
  sorted_by id rest -> sorted_by id (link_after new_alarm rest).
Proof.
  induction rest as [|next rest' IH]; intros Hs; simpl.
  - repeat constructor.
  - destruct (Z.ltb_spec (id next) (id new_alarm)) as [Hlt|Hge].
    + apply sorted_by_cons_inv in Hs as [Hrest Hhd].
      apply sorted_by_cons; [apply IH, Hrest |].
      apply link_after_hd; [lia | exact Hhd].
    + apply sorted_by_cons; [exact Hs | constructor; lia].
Qed.

Lemma insert_by_id_sorted (new_alarm : alarm_t) (l : list alarm_t) :
  sorted_by id l -> sorted_by id (insert_by_id new_alarm l).
Proof.
  destruct l as [|head rest]; intros Hs; simpl.
  - repeat constructor.
  - destruct (Z.gtb_spec (id head) (id new_alarm)) as [Hgt|Hle].
    + apply sorted_by_cons; [exact Hs | constructor; lia].
    + apply sorted_by_cons_inv in Hs as [Hrest Hhd].
      apply sorted_by_cons; [apply link_after_sorted, Hrest |].
      apply link_after_hd; [lia | exact Hhd].
Qed.

Lemma insert_alarm_keeps_id_order malloc_ok now i g secs m (s : state) :
  sorted_by id (alarm_list s) ->
  sorted_by id (alarm_list (insert_alarm malloc_ok now i g secs m s)).
Proof.
  intros Hs. unfold insert_alarm. destruct malloc_ok; simpl.
  - apply insert_by_id_sorted, Hs.
  - exact Hs.
Qed.

Lemma alarm_list_alarm_insert (alarm : alarm_t) (s : state) :
  alarm_list (alarm_insert alarm s) = insert_by_time alarm (alarm_list s).
Proof.
  unfold alarm_insert. simpl.
  destruct ((current_alarm s =? 0) || (time alarm <? current_alarm s)); reflexivity.
Qed.

Lemma console_alarm_insert (alarm : alarm_t) (s : state) :
  console (alarm_insert alarm s) = console s.
Proof.
  unfold alarm_insert. simpl.
  destruct ((current_alarm s =? 0) || (time alarm <? current_alarm s)); reflexivity.
Qed.

Lemma alarm_insert_keeps_time_order (alarm : alarm_t) (s : state) :
  sorted_by time (alarm_list s) ->
  sorted_by time (alarm_list (alarm_insert alarm s)).
Proof.
  intros Hs. rewrite alarm_list_alarm_insert. apply insert_by_time_sorted, Hs.
Qed.

Lemma insert_alarm_seq_sorted (cs : list insert_call) (s : state) :
  sorted_by id (alarm_list s) ->
  sorted_by id (alarm_list (insert_alarm_seq cs s)).
Proof.
  revert s. induction cs as [|c cs IH]; intros s Hs; simpl.
  - exact Hs.
  - apply IH. apply insert_alarm_keeps_id_order, Hs.
Qed.

Lemma alarm_insert_seq_sorted (alarms : list alarm_t) (s : state) :
  sorted_by time (alarm_list s) ->
  sorted_by time (alarm_list (alarm_insert_seq alarms s)).
Proof.
  revert s. induction alarms as [|a alarms IH]; intros s Hs; simpl.
  - exact Hs.
  - apply IH. apply alarm_insert_keeps_time_order, Hs.
Qed.

(** C1 (as amended).  After any sequence of [alarm_insert] calls the list
    is sorted ascending by [time]; after any sequence of [insert_alarm]
    calls, the routine [main] uses, it is sorted ascending by [id]. *)
Theorem insert_routines_keep_their_order :
  (forall alarms : list alarm_t,
     sorted_by time (alarm_list (alarm_insert_seq alarms initial_state))) /\
  (forall cs : list insert_call,
     sorted_by id (alarm_list (insert_alarm_seq cs initial_state))).
Proof.
  split; intros.
  - apply alarm_insert_seq_sorted. constructor.
  - apply insert_alarm_seq_sorted. constructor.
Qed.

(** C1 (counterexample).  Two calls of [insert_alarm] at the same clock
    value, id 1 due in 10 seconds and id 2 due in 5 seconds, leave the
    alarm due at 1010 in front of the alarm due at 1005. *)
Lemma insert_alarm_not_sorted_by_time :
  let s := insert_alarm_seq
             [mk_call true 1000 1 5 10 "a"; mk_call true 1000 2 5 5 "b"]
             initial_state in
  map time (alarm_list s) = [1010; 1005] /\
  ~ sorted_by time (alarm_list s).
Proof.
  intros s. split; [reflexivity |].
  intros H. unfold sorted_by in H.
  replace (alarm_list s)
    with [mk_alarm 10 1010 "a" 1 5; mk_alarm 5 1005 "b" 2 5] in H by reflexivity.
  inversion H as [|? ? _ Hhd]; subst.
  inversion Hhd as [|? ? Hle]; subst. simpl in Hle. lia.
Qed.

(** ** Requests with a group id of MAX_GROUPS or more *)

(** C2 (evaluation at the failing input).  [main] accepts
    [Start_Alarm(1): Group(256) 10 x]: the request is echoed, the alarm is
    put on the list, and the condition variable is broadcast. *)
Theorem start_alarm_group_256_is_inserted :
  exists s',
    main_iteration true true 1000 (Start_Alarm 1 256 10 "x") initial_state = Ok s' /\
    alarm_list s' = [mk_alarm 10 1010 "x" 1 256] /\
    alarm_list s' <> alarm_list initial_state /\
    last_line s' = Some (alarm_inserted 1 256 10 "x").
Proof.
  eexists. split; [reflexivity |]. split; [reflexivity |].
  split; [discriminate | reflexivity].
Qed.

(** C10 (evaluation at the failing input).  Once the alarm of group 256
    is on the list, the next pass of either group thread indexes a
    256-cell array at 256. *)
Theorem group_256_indexes_out_of_bounds :
  forall sys : Z -> spawn_result,
    run [main_reads true true 1000 (Start_Alarm 1 256 10 "x"); creation_wakes sys]
      initial_state = Undefined /\
    run [main_reads true true 1000 (Start_Alarm 1 256 10 "x"); removal_wakes]
      initial_state = Undefined.
Proof. intros sys. split; reflexivity. Qed.

(** ** Requests that are only echoed *)

(** C9.  A Change_Alarm, Cancel_Alarm, Suspend_Alarm or Reactivate_Alarm
    request leaves the alarm list, the group flags, [current_alarm], the
    set of display threads and the condition variable as they were; the
    iteration returns normally (or aborts when the [malloc] of line 370
    fails), having at most written to the terminal. *)
Theorem unwired_requests_change_nothing
    (alarm_malloc_ok insert_malloc_ok : bool) (now : Z) (r : request) (s : state) :
  unwired r = true ->
  exists s',
    main_iteration alarm_malloc_ok insert_malloc_ok now r s
      = (if alarm_malloc_ok then Ok s' else Aborted s') /\
    alarm_list s' = alarm_list s /\
    active_group_threads s' = active_group_threads s /\
    current_alarm s' = current_alarm s /\
    display_threads s' = display_threads s /\
    alarm_cond s' = alarm_cond s.
Proof.
  intros Hr. destruct r; try discriminate Hr; simpl;
    destruct alarm_malloc_ok; simpl;
    try (exists s; repeat split; reflexivity);
    match goal with
    | |- context [if ?c then _ else _] => destruct c
    end; eexists; (split; [reflexivity | repeat split; reflexivity]).
Qed.

Lemma unwired_requests_change_nothing_witness :
  exists s',
    main_iteration true true 1000 (Cancel_Alarm 3) initial_state = Ok s' /\
    alarm_list s' = alarm_list initial_state /\
    active_group_threads s' = active_group_threads initial_state /\
    current_alarm s' = current_alarm initial_state /\
    display_threads s' = display_threads initial_state /\
    alarm_cond s' = alarm_cond initial_state.
Proof.
  apply (unwired_requests_change_nothing true true 1000 (Cancel_Alarm 3) initial_state).
  reflexivity.
Defined.

(** ** What an insertion does to current_alarm and to the condition variable *)

(** C6 (as amended).  [alarm_insert] sets [current_alarm] to the new
    alarm's time when [current_alarm] is 0 or the new time is earlier, and
    in that case only calls [pthread_cond_signal] once; otherwise it
    touches neither.  A Start_Alarm request accepted by [main] is followed
    by one [pthread_cond_broadcast] and leaves [current_alarm] as it was. *)
Theorem insert_wakeups :
  (forall (alarm : alarm_t) (s : state),
     let s' := alarm_insert alarm s in
     if (current_alarm s =? 0) || (time alarm <? current_alarm s)
     then current_alarm s' = time alarm /\
          alarm_cond s' = alarm_cond s ++ [pthread_cond_signal]
     else current_alarm s' = current_alarm s /\
          alarm_cond s' = alarm_cond s) /\
  (forall (insert_malloc_ok : bool) (now i g t : Z) (m : string) (s : state),
     0 <= i -> 0 <= g -> 0 <= t ->
     exists s',
       main_iteration true insert_malloc_ok now (Start_Alarm i g t m) s = Ok s' /\
       current_alarm s' = current_alarm s /\
       alarm_cond s' = alarm_cond s ++ [pthread_cond_broadcast]).
Proof.
  split.
  - intros alarm s s'. subst s'. unfold alarm_insert. simpl.
    destruct ((current_alarm s =? 0) || (time alarm <? current_alarm s));
      split; reflexivity.
  - intros i_ok now i g t m s Hi Hg Ht. simpl.
    destruct (Z.ltb_spec i 0); [lia |].
    destruct (Z.ltb_spec g 0); [lia |].
    destruct (Z.ltb_spec t 0); [lia |]. simpl.
    eexists. split; [reflexivity |].
    unfold insert_alarm. destruct i_ok; split; reflexivity.
Qed.

Lemma insert_wakeups_witness :
  exists s',
    main_iteration true true 1000 (Start_Alarm 1 5 10 "a") initial_state = Ok s' /\
    current_alarm s' = current_alarm initial_state /\
    alarm_cond s' = alarm_cond initial_state ++ [pthread_cond_broadcast].
Proof.
  apply (proj2 insert_wakeups true 1000 1 5 10 "a"%string initial_state); lia.
Defined.

(** C6 (counterexample).  With the alarm thread idle ([current_alarm] is
    0), [alarm_insert] issues a single-wake signal and no broadcast, and
    the Start_Alarm path of [main] inserts the alarm without updating
    [current_alarm]. *)
Lemma insert_neither_updates_and_broadcasts :
  (let s' := alarm_insert (mk_alarm 10 1010 "a" 1 5) initial_state in
   alarm_cond s' = [pthread_cond_signal] /\
   ~ In pthread_cond_broadcast (alarm_cond s')) /\
  (exists s',
     main_iteration true true 1000 (Start_Alarm 1 5 10 "a") initial_state = Ok s' /\
     alarm_list s' = [mk_alarm 10 1010 "a" 1 5] /\
     current_alarm s' = 0 /\ current_alarm s' <> 1010).
Proof.
  split.
  - split; [reflexivity |]. simpl. intros [H|[]]. discriminate H.
  - eexists. split; [reflexivity |]. split; [reflexivity |].
    split; [reflexivity | discriminate].
Qed.

(** ** One pass of a display thread *)

Lemma display_scan_constant_clock (group_id now : Z) (clock : nat -> Z)
    (tick : nat) (l : list alarm_t) :
  (forall k, clock k = now) ->
  display_scan group_id clock tick l
    = (map (reschedule group_id now) l,
       map printed_line (List.filter (due group_id now) l)).
Proof.
  intros Hclock. revert tick.
  induction l as [|current link IH]; intros tick; simpl.
  - reflexivity.
  - rewrite !Hclock.
    assert (Hdue : due group_id now current
                   = (groupId current =? group_id) && (now >=? time current))
      by reflexivity.
    unfold reschedule at 1. rewrite Hdue.
    destruct (groupId current =? group_id); simpl.
    + destruct (now >=? time current); rewrite IH; reflexivity.
    + rewrite IH. reflexivity.
Qed.

Lemma reschedule_same_but_time (group_id now : Z) (l : list alarm_t) :
  Forall2 same_but_time l (map (reschedule group_id now) l).
Proof.
  induction l as [|a l IH]; simpl; constructor; [| exact IH].
  unfold reschedule, same_but_time. destruct (due group_id now a); simpl; auto.
Qed.

(** C8.  In a pass during which the clock reads [now] throughout, the
    display thread of [group_id] prints exactly the alarms of the list
    whose group is [group_id] and whose time is at most [now], in list
    order, and sets the time of each of them to [now + seconds]; every
    other alarm, every other field, and the rest of the state are left as
    they were. *)
Theorem display_pass_reports_and_reschedules
    (group_id now : Z) (clock : nat -> Z) (s : state) :
  (forall k, clock k = now) ->
  let s' := display_alarm_thread group_id clock s in
  console s' = console s
                 ++ map printed_line (List.filter (due group_id now) (alarm_list s)) /\
  alarm_list s' = map (reschedule group_id now) (alarm_list s) /\
  Forall2 same_but_time (alarm_list s) (alarm_list s') /\
  (forall a, In a (alarm_list s) -> due group_id now a = false ->
             reschedule group_id now a = a) /\
  (forall a, due group_id now a = true ->
             time (reschedule group_id now a) = now + seconds a) /\
  active_group_threads s' = active_group_threads s /\
  current_alarm s' = current_alarm s /\
  display_threads s' = display_threads s.
Proof.
  intros Hclock s'. subst s'. unfold display_alarm_thread.
  rewrite (display_scan_constant_clock group_id now clock 0 _ Hclock). simpl.
  split; [reflexivity |]. split; [reflexivity |].
  split; [apply reschedule_same_but_time |].
  split; [intros a _ Ha; unfold reschedule; rewrite Ha; reflexivity |].
  split; [intros a Ha; unfold reschedule; rewrite Ha; reflexivity |].
  repeat split.
Qed.

Lemma display_pass_reports_and_reschedules_witness :
  let s := set_alarm_list
             [mk_alarm 10 1010 "a" 1 5; mk_alarm 5 1005 "b" 2 5; mk_alarm 7 1000 "c" 3 6]
             initial_state in
  let s' := display_alarm_thread 5 (fun _ => 1007) s in
  console s' = [alarm_printed 2 5 5 "b"] /\
  alarm_list s'
    = [mk_alarm 10 1010 "a" 1 5; mk_alarm 5 1012 "b" 2 5; mk_alarm 7 1000 "c" 3 6].
Proof.
  intros s s'.
  destruct (display_pass_reports_and_reschedules 5 1007 (fun _ => 1007) s
              (fun _ => eq_refl)) as (Hc & Hl & _).
  split; [exact Hc | exact Hl].
Defined.

(** ** Array cells *)

Lemma array_get_in_range (arr : list Z) (i : Z) :
  0 <= i < MAX_GROUPS -> length arr = Z.to_nat MAX_GROUPS ->
  exists v, array_get arr i = Some v.
Proof.
  intros Hi Hlen. unfold array_get. rewrite decide_True by exact Hi.
  apply lookup_lt_is_Some_2. rewrite Hlen. unfold MAX_GROUPS in *. lia.
Qed.

Lemma array_set_in_range (arr : list Z) (i v : Z) :
  0 <= i < MAX_GROUPS -> length arr = Z.to_nat MAX_GROUPS ->
  array_set arr i v = Some (<[Z.to_nat i := v]> arr).
Proof.
  intros Hi Hlen. unfold array_set. rewrite decide_True by exact Hi.
  rewrite decide_True; [reflexivity |].
  rewrite Hlen. unfold MAX_GROUPS in *. lia.
Qed.

Lemma array_set_inv (arr arr' : list Z) (i v : Z) :
  array_set arr i v = Some arr' ->
  0 <= i < MAX_GROUPS /\ (Z.to_nat i < length arr)%nat /\
  arr' = <[Z.to_nat i := v]> arr.
Proof.
  unfold array_set. intros H.
  destruct (decide (0 <= i < MAX_GROUPS)); [| discriminate].
  destruct (decide (Z.to_nat i < length arr)%nat); [| discriminate].
  inversion H. auto.
Qed.

Lemma array_get_set_same (arr arr' : list Z) (i v : Z) :
  array_set arr i v = Some arr' -> array_get arr' i = Some v.
Proof.
  intros H. apply array_set_inv in H as (Hi & Hlt & ->).
  unfold array_get. rewrite decide_True by exact Hi.
  apply list_lookup_insert_eq. exact Hlt.
Qed.

Lemma array_get_set_other (arr arr' : list Z) (i j v : Z) :
  array_set arr i v = Some arr' -> i <> j -> array_get arr' j = array_get arr j.
Proof.
  intros H Hne. apply array_set_inv in H as (Hi & Hlt & ->).
  unfold array_get. destruct (decide (0 <= j < MAX_GROUPS)); [| reflexivity].
  apply list_lookup_insert_ne. lia.
Qed.

Lemma array_set_length (arr arr' : list Z) (i v : Z) :
  array_set arr i v = Some arr' -> length arr' = length arr.
Proof.
  intros H. apply array_set_inv in H as (_ & _ & ->). apply length_insert.
Qed.

(** ** Failure to start a display thread *)

Lemma creation_scan_failure (sys : Z -> spawn_result) (l : list alarm_t) :
  forall s : state,
    well_sized s ->
    Forall in_range l ->
    (exists a, In a l /\
               array_get (active_group_threads s) (groupId a) = Some 0 /\
               sys (groupId a) <> thread_starts) ->
    exists s' g,
      creation_scan sys l s = Exited 1 s' /\
      array_get (active_group_threads s') g = Some 0 /\
      sys g <> thread_starts /\
      last_line s' = Some (failure_line (sys g) g) /\
      alarm_list s' = alarm_list s.
Proof.
  induction l as [|current link IH]; intros s Hsize Hrange (a & Hin & Hflag & Hsys).
  - destruct Hin.
  - inversion Hrange as [|? ? Hcur Hlink]; subst.
    cbn [creation_scan].
    destruct (array_get_in_range (active_group_threads s) (groupId current) Hcur Hsize)
      as [flag Hget].
    rewrite Hget.
    destruct (Z.eqb_spec flag 0) as [->|Hnz].
    + destruct (sys (groupId current)) eqn:Hres.
      * exists (print alloc_error s), (groupId current).
        rewrite Hres. unfold last_line. simpl. rewrite last_snoc.
        repeat split; try assumption; try reflexivity. discriminate.
      * exists (print (create_error (groupId current)) s), (groupId current).
        rewrite Hres. unfold last_line. simpl. rewrite last_snoc.
        repeat split; try assumption; try reflexivity. discriminate.
      * rewrite (array_set_in_range _ _ 1 Hcur Hsize).
        assert (Hne : groupId current <> groupId a) by congruence.
        destruct Hin as [-> | Hin]; [congruence |].
        edestruct IH as (s' & g & Hrun & Hg & Hsg & Hlast & Hlist);
          [| exact Hlink | | exists s', g; rewrite Hrun; eauto].
        -- unfold well_sized in *. simpl. rewrite length_insert. exact Hsize.
        -- exists a. split; [exact Hin |]. split; [| exact Hsys]. simpl.
           rewrite <- Hflag.
           apply (array_get_set_other (active_group_threads s) _
                    (groupId current) (groupId a) 1);
             [apply array_set_in_range; assumption | exact Hne].
    + destruct Hin as [-> | Hin]; [congruence |].
      edestruct IH as (s' & g & Hrun & Hg & Hsg & Hlast & Hlist);
        [| exact Hlink | | exists s', g; rewrite Hrun; eauto].
      * exact Hsize.
      * exists a. auto.
Qed.

(** C7 (as amended).  If [malloc] or [pthread_create] fails for a group
    that has an alarm on the list and whose flag is 0, the pass of the
    creation thread writes the error to stderr and ends the process with
    [exit (1)]; the flag of the group whose thread could not be started is
    still 0 and the alarm list is as it was. *)
Theorem creation_failure_exits (sys : Z -> spawn_result) (s : state) (a : alarm_t) :
  well_sized s ->
  Forall in_range (alarm_list s) ->
  In a (alarm_list s) ->
  array_get (active_group_threads s) (groupId a) = Some 0 ->
  sys (groupId a) <> thread_starts ->
  exists s' g,
    group_display_creation_thread sys s = Exited 1 s' /\
    array_get (active_group_threads s') g = Some 0 /\
    sys g <> thread_starts /\
    last_line s' = Some (failure_line (sys g) g) /\
    alarm_list s' = alarm_list s.
Proof.
  intros Hsize Hrange Hin Hflag Hsys.
  apply creation_scan_failure; [assumption | assumption |].
  exists a. auto.
Qed.

Lemma creation_failure_exits_witness :
  exists s' g,
    group_display_creation_thread (fun _ => pthread_create_fails)
      (set_alarm_list [mk_alarm 10 1010 "a" 1 5] initial_state) = Exited 1 s' /\
    array_get (active_group_threads s') g = Some 0 /\
    (fun _ : Z => pthread_create_fails) g <> thread_starts /\
    last_line s' = Some (failure_line pthread_create_fails g) /\
    alarm_list s' = [mk_alarm 10 1010 "a" 1 5].
Proof.
  apply (creation_failure_exits (fun _ => pthread_create_fails)
           (set_alarm_list [mk_alarm 10 1010 "a" 1 5] initial_state)
           (mk_alarm 10 1010 "a" 1 5)).
  - reflexivity.
  - repeat constructor; unfold MAX_GROUPS; simpl; lia.
  - left. reflexivity.
  - reflexivity.
  - discriminate.
Defined.

(** C7 (counterexample).  With one alarm of group 5 on the list and no
    thread for that group, a failing [malloc] in the creation thread ends
    the process with status 1 instead of leaving it running. *)
Lemma creation_malloc_failure_terminates :
  let s := set_alarm_list [mk_alarm 10 1010 "a" 1 5] initial_state in
  group_display_creation_thread (fun _ => malloc_fails) s
    = Exited 1 (print alloc_error s) /\
  (forall s', group_display_creation_thread (fun _ => malloc_fails) s <> Ok s').
Proof.
  intros s. split; [reflexivity |]. intros s' H. discriminate H.
Qed.

(** ** The alarm thread and an earlier insertion *)




Lemma take_head_in_order (now : Z) (s : state) :
  let st := take_head now s in
  exists fired,
    console (snd st) = console s ++ map expired_line fired /\
    alarm_list s = fired ++ pending st /\
    waiting_on_current st.
Proof.
  unfold take_head. destruct (alarm_list s) as [|alarm link] eqn:Hl;
    unfold pending, waiting_on_current; simpl.
  - exists []. simpl. rewrite app_nil_r, ?Hl. repeat split.
  - destruct (time alarm >? now); simpl.
    + exists []. simpl. rewrite app_nil_r. repeat split.
    + exists [alarm]. repeat split.
Qed.

Lemma alarm_thread_step_in_order (status : wait_status) (now : Z)
    (st : alarm_thread_pc * state) :
  waiting_on_current st ->
  exists fired,
    console (snd (alarm_thread_step status now st))
      = console (snd st) ++ map expired_line fired /\
    pending st = fired ++ pending (alarm_thread_step status now st) /\
    waiting_on_current (alarm_thread_step status now st).
Proof.
  destruct st as [pc s]. intros Hw. destruct pc as [| |alarm]; simpl.
  - apply (take_head_in_order now (set_current_alarm 0 s)).
  - apply (take_head_in_order now s).
  - destruct status.
    + unfold waiting_on_current in Hw. simpl in Hw.
      rewrite Hw, Z.eqb_refl. exists []. simpl. rewrite app_nil_r.
      repeat split. exact Hw.
    + exists [alarm]. repeat split.
Qed.

Lemma alarm_thread_run_in_order (evs : list (wait_status * Z)) :
  forall st : alarm_thread_pc * state,
    waiting_on_current st ->
    exists fired,
      console (snd (alarm_thread_run evs st))
        = console (snd st) ++ map expired_line fired /\
      pending st = fired ++ pending (alarm_thread_run evs st).
Proof.
  induction evs as [|[status now] evs IH]; intros st Hw; simpl.
  - exists []. simpl. rewrite app_nil_r. split; reflexivity.
  - destruct (alarm_thread_step_in_order status now st Hw) as (f1 & Hc1 & Hp1 & Hw1).
    destruct (IH _ Hw1) as (f2 & Hc2 & Hp2).
    exists (f1 ++ f2). rewrite Hc2, Hc1, Hp1, Hp2, map_app, !app_assoc.
    split; reflexivity.
Qed.



(** The insertion [main] performs does not have this effect:
    [insert_alarm] leaves [current_alarm] alone, so an alarm thread woken
    by the broadcast that follows would find [current_alarm] unchanged and
    resume its wait for the later alarm. *)
Remark insert_alarm_leaves_timed_wait
    (malloc_ok : bool) (now now' i g secs : Z) (m : string) (s : state) (a1 : alarm_t) :
  current_alarm s = time a1 ->
  alarm_thread_step woken now'
    (in_cond_timedwait a1,
     notify pthread_cond_broadcast (insert_alarm malloc_ok now i g secs m s))
  = (in_cond_timedwait a1,
     notify pthread_cond_broadcast (insert_alarm malloc_ok now i g secs m s)).
Proof.
  intros Hcur. simpl.
  assert (Hsame : current_alarm (insert_alarm malloc_ok now i g secs m s)
                  = current_alarm s)
    by (unfold insert_alarm; destruct malloc_ok; reflexivity).
  rewrite Hsame, Hcur, Z.eqb_refl. reflexivity.
Qed.

(** A timed wait that returns [ETIMEDOUT] is an expiry whatever
    [current_alarm] holds: the held alarm is reported. *)
Remark timeout_reports_held_alarm (now : Z) (a1 : alarm_t) (s : state) :
  alarm_thread_step ETIMEDOUT now (in_cond_timedwait a1, s)
  = (loop_top, print (expired_line a1) s).
Proof. reflexivity. Qed.

(** ** Removal of a group's display thread *)

Lemma removal_sweep_threads (ids marks : list Z) :
  forall s s' : state,
    removal_sweep ids marks s = Ok s' ->
    display_threads s' = display_threads s /\
    alarm_cond s' = alarm_cond s /\
    alarm_list s' = alarm_list s.
Proof.
  induction ids as [|g ids IH]; intros s s' H; simpl in H.
  - inversion H. auto.
  - destruct (array_get (active_group_threads s) g) as [flag|]; [| discriminate].
    destruct (array_get marks g) as [mark|]; [| discriminate].
    destruct ((flag =? 1) && (mark =? 0)).
    + destruct (array_set (active_group_threads s) g 0) as [flags|]; [| discriminate].
      apply IH in H. simpl in H. exact H.
    + apply IH in H. exact H.
Qed.

(** A pass of the removal thread never ends a display thread and never
    touches the condition variable. *)
Lemma removal_keeps_display_threads (s s' : state) :
  group_display_removal_thread s = Ok s' ->
  display_threads s' = display_threads s /\
  alarm_cond s' = alarm_cond s /\
  alarm_list s' = alarm_list s.
Proof.
  unfold group_display_removal_thread.
  destruct (mark_groups (alarm_list s) _) as [marks|]; [| discriminate].
  apply removal_sweep_threads.
Qed.

(** ** One display thread per group *)

Lemma consistent_same_core (s s' : state) :
  consistent s ->
  groups s' = groups s ->
  active_group_threads s' = active_group_threads s ->
  display_threads s' = display_threads s ->
  consistent s'.
Proof.
  intros [Hsize Hrange Hback Hthr Hnd] Hg Ha Ht.
  split; unfold well_sized, flag in *; rewrite ?Hg, ?Ha, ?Ht; assumption.
Qed.

Lemma initial_state_consistent : consistent initial_state.
Proof.
  assert (Hzero : forall g, flag initial_state g = Some 1 -> False).
  { intros g. unfold flag, array_get, initial_state, active_group_threads.
    destruct (decide (0 <= g < MAX_GROUPS)); [| discriminate].
    intros H. apply lookup_replicate in H as [H _]. discriminate H. }
  split.
  - reflexivity.
  - constructor.
  - intros g H. destruct (Hzero g H).
  - intros g. split; [intros [] | intros H; destruct (Hzero g H)].
  - constructor.
Qed.

Lemma in_link_after (x new_alarm : alarm_t) (rest : list alarm_t) :
  In x (link_after new_alarm rest) <-> x = new_alarm \/ In x rest.
Proof.
  induction rest as [|next rest' IH]; simpl.
  - intuition.
  - destruct (id next <? id new_alarm); simpl; rewrite ?IH; intuition.
Qed.

Lemma in_insert_by_id (x new_alarm : alarm_t) (l : list alarm_t) :
  In x (insert_by_id new_alarm l) <-> x = new_alarm \/ In x l.
Proof.
  destruct l as [|head rest]; simpl.
  - intuition.
  - destruct (id head >? id new_alarm); simpl; rewrite ?in_link_after; intuition.
Qed.

Lemma display_scan_groups (group_id : Z) (clock : nat -> Z) (l : list alarm_t) :
  forall tick, map groupId (fst (display_scan group_id clock tick l)) = map groupId l.
Proof.
  induction l as [|current link IH]; intros tick; simpl.
  - reflexivity.
  - destruct (groupId current =? group_id).
    + destruct (clock tick >=? time current).
      * specialize (IH (tick + 3)%nat).
        destruct (display_scan group_id clock (tick + 3) link). simpl in *.
        rewrite IH. reflexivity.
      * specialize (IH (tick + 1)%nat).
        destruct (display_scan group_id clock (tick + 1) link). simpl in *.
        rewrite IH. reflexivity.
    + specialize (IH tick).
      destruct (display_scan group_id clock tick link). simpl in *.
      rewrite IH. reflexivity.
Qed.

Lemma group_ids_in_range : Forall (fun g => 0 <= g < MAX_GROUPS) group_ids.
Proof.
  unfold group_ids. apply Forall_forall. intros g Hg.
  apply list_elem_of_In, in_map_iff in Hg as (n & <- & Hn).
  apply in_seq in Hn. unfold MAX_GROUPS in *. lia.
Qed.

Lemma view_sweep_defined (s : state) (ids : list Z) :
  well_sized s ->
  Forall (fun g => 0 <= g < MAX_GROUPS) ids ->
  exists out, view_sweep ids s = Some out.
Proof.
  intros Hsize. induction 1 as [|g ids Hg _ [rest IH]]; simpl.
  - eexists. reflexivity.
  - destruct (array_get_in_range _ g Hg Hsize) as [v Hv]. rewrite Hv, IH.
    destruct (v =? 1); [| eexists; reflexivity].
    destruct (view_group g 0 (alarm_list s)). eexists. reflexivity.
Qed.

Lemma creation_scan_consistent (sys : Z -> spawn_result) (l : list alarm_t) :
  forall s : state,
    consistent s ->
    (forall a, In a l -> In (groupId a) (groups s)) ->
    holds consistent (creation_scan sys l s).
Proof.
  induction l as [|current link IH]; intros s Hc Hsub; cbn [creation_scan].
  - exists s. split; [reflexivity | exact Hc].
  - pose proof (Hsub current (or_introl eq_refl)) as Hin.
    assert (Hrange : 0 <= groupId current < MAX_GROUPS)
      by (exact (proj1 (List.Forall_forall _ _) (c_range s Hc) _ Hin)).
    destruct (array_get_in_range _ _ Hrange (c_size s Hc)) as [v Hget].
    rewrite Hget.
    assert (Htail : forall a, In a link -> In (groupId a) (groups s))
      by (intros a Ha; apply Hsub; right; exact Ha).
    destruct (Z.eqb_spec v 0) as [-> | Hnz].
    + destruct (sys (groupId current)).
      * eexists. split; [reflexivity |].
        apply (consistent_same_core s); [exact Hc | reflexivity ..].
      * eexists. split; [reflexivity |].
        apply (consistent_same_core s); [exact Hc | reflexivity ..].
      * pose proof (array_set_in_range _ _ 1 Hrange (c_size s Hc)) as Hset.
        rewrite Hset. apply IH; [| exact Htail].
        split.
        -- unfold well_sized. simpl. rewrite length_insert. exact (c_size s Hc).
        -- exact (c_range s Hc).
        -- intros g Hg. unfold flag in Hg. simpl in Hg.
           destruct (decide (groupId current = g)) as [<- | Hne]; [exact Hin |].
           rewrite (array_get_set_other _ _ _ g 1 Hset Hne) in Hg.
           apply (c_backed s Hc). exact Hg.
        -- intros g. unfold flag. simpl. rewrite in_app_iff.
           destruct (decide (groupId current = g)) as [<- | Hne].
           ++ rewrite (array_get_set_same _ _ _ 1 Hset). simpl. tauto.
           ++ rewrite (array_get_set_other _ _ _ g 1 Hset Hne).
              rewrite <- (c_threads s Hc g). simpl. tauto.
        -- simpl. apply NoDup_app. split; [exact (c_nodup s Hc) |].
           split; [| apply NoDup_singleton].
           intros g Hg Hg'. apply list_elem_of_In in Hg.
           apply list_elem_of_singleton in Hg'. subst g.
           apply (c_threads s Hc) in Hg. unfold flag in Hg. congruence.
    + apply IH; [| exact Htail].
      apply (consistent_same_core s); [exact Hc | reflexivity ..].
Qed.

Lemma creation_scan_spawns (sys : Z -> spawn_result) (l : list alarm_t) :
  forall s s' : state,
    final (creation_scan sys l s) = Some s' ->
    alarm_list s' = alarm_list s /\
    (forall g v, flag s g = Some v -> v <> 0 -> flag s' g = Some v) /\
    exists new,
      display_threads s' = display_threads s ++ new /\
      forall g, In g new -> flag s g = Some 0 /\ flag s' g = Some 1.
Proof.
  assert (Hstop : forall (o : output) (s s' : state),
             Some (print o s) = Some s' ->
             alarm_list s' = alarm_list s /\
             (forall g v, flag s g = Some v -> v <> 0 -> flag s' g = Some v) /\
             exists new,
               display_threads s' = display_threads s ++ new /\
               forall g, In g new -> flag s g = Some 0 /\ flag s' g = Some 1).
  { intros o s s' H. inversion H; subst.
    split; [reflexivity |]. split; [auto |].
    exists []. simpl. rewrite app_nil_r. split; [reflexivity | intros g []]. }
  induction l as [|current link IH]; intros s s' H; cbn [creation_scan] in H.
  - simpl in H. inversion H; subst.
    split; [reflexivity |]. split; [auto |].
    exists []. rewrite app_nil_r. split; [reflexivity | intros g []].
  - destruct (array_get (active_group_threads s) (groupId current)) as [v0|] eqn:Hget;
      [| discriminate H].
    destruct (Z.eqb_spec v0 0) as [-> | Hnz].
    + destruct (sys (groupId current)).
      * apply (Hstop _ _ _ H).
      * apply (Hstop _ _ _ H).
      * destruct (array_set (active_group_threads s) (groupId current) 1)
          as [flags|] eqn:Hset; [| discriminate H].
        apply IH in H as (Hl & Hmono & new & Hthr & Hnew).
        unfold flag in Hmono, Hnew. simpl in Hl, Hmono, Hthr, Hnew.
        split; [exact Hl |]. split.
        -- intros g v Hg Hv. apply Hmono; [| exact Hv].
           rewrite (array_get_set_other _ _ (groupId current) g 1 Hset); [exact Hg |].
           intros <-. unfold flag in Hg. congruence.
        -- exists (groupId current :: new). split.
           ++ rewrite Hthr, <- app_assoc. reflexivity.
           ++ intros g [<- | Hin].
              ** split; [exact Hget |].
                 apply Hmono; [exact (array_get_set_same _ _ _ 1 Hset) | lia].
              ** destruct (Hnew g Hin) as [H0 H1]. split; [| exact H1].
                 destruct (decide (groupId current = g)) as [<- | Hne].
                 --- rewrite (array_get_set_same _ _ _ 1 Hset) in H0. discriminate H0.
                 --- rewrite (array_get_set_other _ _ _ g 1 Hset Hne) in H0. exact H0.
    + apply IH in H. exact H.
Qed.

Lemma creation_scan_flags_all (sys : Z -> spawn_result) (l : list alarm_t) :
  forall s s' : state,
    creation_scan sys l s = Ok s' -> all_flagged l s'.
Proof.
  induction l as [|current link IH]; intros s s' H; cbn [creation_scan] in H.
  - constructor.
  - destruct (array_get (active_group_threads s) (groupId current)) as [v0|] eqn:Hget;
      [| discriminate H].
    destruct (Z.eqb_spec v0 0) as [-> | Hnz].
    + destruct (sys (groupId current)); try discriminate H.
      destruct (array_set (active_group_threads s) (groupId current) 1)
        as [flags|] eqn:Hset; [| discriminate H].
      constructor; [| exact (IH _ _ H)].
      exists 1. split; [| lia].
      assert (Hfin : final (creation_scan sys link
                       (print (thread_created (id current) (groupId current)
                                 (seconds current) (message current))
                          (set_active_group_threads flags
                             (start_display_thread (groupId current) s))))
                     = Some s') by (rewrite H; reflexivity).
      apply creation_scan_spawns in Hfin as (_ & Hmono & _).
      apply Hmono; [| lia]. exact (array_get_set_same _ _ _ 1 Hset).
    + constructor; [| exact (IH _ _ H)].
      exists v0. split; [| exact Hnz].
      assert (Hfin : final (creation_scan sys link
                       (print (thread_assigned (id current) (groupId current)
                                 (seconds current) (message current)) s))
                     = Some s') by (rewrite H; reflexivity).
      apply creation_scan_spawns in Hfin as (_ & Hmono & _).
      apply Hmono; [exact Hget | exact Hnz].
Qed.

Lemma creation_scan_all_flagged (sys : Z -> spawn_result) (l : list alarm_t) :
  forall s : state,
    all_flagged l s ->
    exists s',
      creation_scan sys l s = Ok s' /\
      display_threads s' = display_threads s /\
      active_group_threads s' = active_group_threads s /\
      alarm_list s' = alarm_list s.
Proof.
  induction l as [|current link IH]; intros s Hall; cbn [creation_scan].
  - exists s. repeat split.
  - inversion Hall as [|? ? (v & Hv & Hnz) Hrest]; subst.
    unfold flag in Hv. rewrite Hv.
    destruct (Z.eqb_spec v 0) as [-> | _]; [lia |].
    apply (IH (print (thread_assigned (id current) (groupId current)
                        (seconds current) (message current)) s)).
    exact Hrest.
Qed.

Lemma mark_groups_marks (l : list alarm_t) :
  forall marks : list Z,
    length marks = Z.to_nat MAX_GROUPS ->
    Forall (fun g => 0 <= g < MAX_GROUPS) (map groupId l) ->
    exists marks',
      mark_groups l marks = Some marks' /\
      length marks' = Z.to_nat MAX_GROUPS /\
      forall g, array_get marks g = Some 1 \/ In g (map groupId l) ->
                array_get marks' g = Some 1.
Proof.
  induction l as [|current link IH]; intros marks Hlen Hrange; simpl.
  - exists marks. split; [reflexivity |]. split; [exact Hlen |].
    intros g [H | []]. exact H.
  - simpl in Hrange. inversion Hrange as [|? ? Hcur Hlink]; subst.
    pose proof (array_set_in_range marks _ 1 Hcur Hlen) as Hset. rewrite Hset.
    destruct (IH (<[Z.to_nat (groupId current) := 1]> marks)) as (marks' & Hm & Hl & Hone).
    + rewrite length_insert. exact Hlen.
    + exact Hlink.
    + exists marks'. split; [exact Hm |]. split; [exact Hl |].
      intros g Hg. apply Hone.
      destruct (decide (groupId current = g)) as [<- | Hne].
      * left. exact (array_get_set_same _ _ _ 1 Hset).
      * destruct Hg as [Hg | [Hg | Hg]]; [| contradiction | right; exact Hg].
        left. rewrite (array_get_set_other _ _ _ g 1 Hset Hne). exact Hg.
Qed.

Lemma removal_sweep_nothing_to_remove (marks : list Z) (s : state) (ids : list Z) :
  well_sized s ->
  length marks = Z.to_nat MAX_GROUPS ->
  (forall g, flag s g = Some 1 -> array_get marks g = Some 1) ->
  Forall (fun g => 0 <= g < MAX_GROUPS) ids ->
  removal_sweep ids marks s = Ok s.
Proof.
  intros Hsize Hlen Hmarked. induction 1 as [|g ids Hg _ IH]; simpl.
  - reflexivity.
  - destruct (array_get_in_range _ g Hg Hsize) as [v Hv].
    destruct (array_get_in_range _ g Hg Hlen) as [m Hm].
    rewrite Hv, Hm.
    destruct (Z.eqb_spec v 1) as [-> | _]; simpl; [| exact IH].
    rewrite (Hmarked g Hv) in Hm. inversion Hm; subst. simpl. exact IH.
Qed.

(** With every flagged group present on the list, a pass of the removal
    thread changes nothing. *)
Lemma removal_nothing_to_remove (s : state) :
  consistent s -> group_display_removal_thread s = Ok s.
Proof.
  intros Hc. unfold group_display_removal_thread.
  destruct (mark_groups_marks (alarm_list s) (replicate (Z.to_nat MAX_GROUPS) 0))
    as (marks & Hm & Hlen & Hone).
  - apply length_replicate.
  - exact (c_range s Hc).
  - rewrite Hm. apply removal_sweep_nothing_to_remove.
    + exact (c_size s Hc).
    + exact Hlen.
    + intros g Hg. apply Hone. right. exact (c_backed s Hc g Hg).
    + exact group_ids_in_range.
Qed.

Lemma insert_alarm_consistent (malloc_ok : bool) (now i g secs : Z) (m : string)
    (s : state) :
  consistent s -> 0 <= g < MAX_GROUPS ->
  consistent (insert_alarm malloc_ok now i g secs m s).
Proof.
  intros Hc Hg. unfold insert_alarm. destruct malloc_ok.
  - split.
    + exact (c_size s Hc).
    + unfold groups. simpl. apply List.Forall_forall. intros g' Hg'.
      apply in_map_iff in Hg' as (a & <- & Ha).
      apply in_insert_by_id in Ha as [-> | Ha]; [exact Hg |].
      apply (proj1 (List.Forall_forall _ _) (c_range s Hc)).
      apply in_map. exact Ha.
    + intros g' Hg'. apply (c_backed s Hc) in Hg'.
      unfold groups in *. simpl.
      apply in_map_iff in Hg' as (a & <- & Ha).
      apply in_map. apply in_insert_by_id. right. exact Ha.
    + exact (c_threads s Hc).
    + exact (c_nodup s Hc).
  - apply (consistent_same_core s); [exact Hc | reflexivity ..].
Qed.

Lemma main_iteration_consistent (a_ok i_ok : bool) (now : Z) (r : request) (s : state) :
  consistent s ->
  bounded (main_reads a_ok i_ok now r) ->
  holds consistent (main_iteration a_ok i_ok now r s).
Proof.
  intros Hc Hb.
  assert (Hsame : forall s', groups s' = groups s ->
                    active_group_threads s' = active_group_threads s ->
                    display_threads s' = display_threads s ->
                    consistent s')
    by (intros s'; apply consistent_same_core; exact Hc).
  assert (Hkeep : holds consistent (Ok s))
    by (exists s; split; [reflexivity | exact Hc]).
  assert (Hprint : forall o, holds consistent (Ok (print o s)))
    by (intros o; eexists; split; [reflexivity | apply Hsame; reflexivity]).
  destruct r as [i g t m | i g t m | i | i | i | | | |];
    unfold main_iteration; try exact Hkeep;
    destruct a_ok; cbn [negb]; try exact Hkeep;
    try (eexists; split; [reflexivity | exact Hc]).
  - destruct (Z.ltb_spec i 0); cbn [orb]; [apply Hprint |].
    destruct (Z.ltb_spec g 0); cbn [orb]; [apply Hprint |].
    destruct (Z.ltb_spec t 0); cbn [orb]; [apply Hprint |].
    eexists. split; [reflexivity |].
    cbn [bounded] in Hb.
    apply (consistent_same_core
             (insert_alarm i_ok now i g t m
                (print (request_echo (Start_Alarm i g t m)) s)));
      [| reflexivity ..].
    apply insert_alarm_consistent; [apply Hsame; reflexivity | lia].
  - destruct ((i <? 0) || (g <? 0) || (t <? 0)); apply Hprint.
  - destruct (i <? 0); apply Hprint.
  - destruct (i <? 0); apply Hprint.
  - destruct (i <? 0); apply Hprint.
  - destruct (view_sweep_defined s group_ids (c_size s Hc) group_ids_in_range)
      as [out Hout].
    rewrite Hout. eexists. split; [reflexivity | apply Hsame; reflexivity].
  - apply Hprint.
Qed.

Lemma display_alarm_thread_consistent (group_id : Z) (clock : nat -> Z) (s : state) :
  consistent s -> consistent (display_alarm_thread group_id clock s).
Proof.
  intros Hc. apply (consistent_same_core s); [exact Hc | ..];
    unfold display_alarm_thread, groups;
    pose proof (display_scan_groups group_id clock (alarm_list s) 0) as Hg;
    destruct (display_scan group_id clock 0 (alarm_list s)); simpl in *;
    [exact Hg | reflexivity | reflexivity].
Qed.

Lemma step_consistent (e : event) (s : state) :
  consistent s -> bounded e -> holds consistent (step e s).
Proof.
  intros Hc Hb. destruct e as [a_ok i_ok now r | sys | | group_id clock]; simpl.
  - apply main_iteration_consistent; assumption.
  - apply creation_scan_consistent; [exact Hc |].
    intros a Ha. apply in_map. exact Ha.
  - rewrite (removal_nothing_to_remove s Hc). exists s. split; [reflexivity | exact Hc].
  - destruct (decide (group_id ∈ display_threads s)).
    + eexists. split; [reflexivity |]. apply display_alarm_thread_consistent, Hc.
    + exists s. split; [reflexivity | exact Hc].
Qed.

Lemma run_consistent (evs : list event) :
  forall s : state,
    consistent s -> Forall bounded evs -> holds consistent (run evs s).
Proof.
  induction evs as [|e evs IH]; intros s Hc Hb; simpl.
  - exists s. split; [reflexivity | exact Hc].
  - inversion Hb as [|? ? He Hrest]; subst.
    destruct (step_consistent e s Hc He) as (s1 & Hfin & Hc1).
    destruct (step e s) as [s1' | status s1' | s1' |]; simpl in Hfin.
    + inversion Hfin; subst. apply IH; assumption.
    + exists s1. split; [exact Hfin | exact Hc1].
    + exists s1. split; [exact Hfin | exact Hc1].
    + discriminate Hfin.
Qed.

(** C5.  Start from the initial state and let [main], the creation
    thread, the removal thread and the display threads take steps in any
    order, with every Start_Alarm group id below [MAX_GROUPS].  The run is
    defined, and in the state it reaches no group has two display threads:
    the running display threads are, without repetition, exactly the
    groups whose flag is 1.  A pass of the creation thread from such a
    state starts threads only for groups whose flag was 0 and leaves
    their flag at 1; a further pass over the unchanged list starts none. *)
Theorem one_display_thread_per_group (evs : list event) :
  Forall bounded evs ->
  holds (fun s =>
           NoDup (display_threads s) /\
           forall g, In g (display_threads s) <-> flag s g = Some 1)
        (run evs initial_state) /\
  forall s, run evs initial_state = Ok s ->
    forall sys s', final (group_display_creation_thread sys s) = Some s' ->
      NoDup (display_threads s') /\
      alarm_list s' = alarm_list s /\
      (exists new,
         display_threads s' = display_threads s ++ new /\
         forall g, In g new -> flag s g = Some 0 /\ flag s' g = Some 1) /\
      (group_display_creation_thread sys s = Ok s' ->
       forall sys', exists s'',
         group_display_creation_thread sys' s' = Ok s'' /\
         display_threads s'' = display_threads s' /\
         active_group_threads s'' = active_group_threads s').
Proof.
  intros Hb.
  destruct (run_consistent evs initial_state initial_state_consistent Hb)
    as (sf & Hfin & Hcf).
  split.
  - exists sf. split; [exact Hfin |].
    split; [exact (c_nodup sf Hcf) | exact (c_threads sf Hcf)].
  - intros s Hrun sys s' Hpass.
    rewrite Hrun in Hfin. simpl in Hfin. inversion Hfin; subst sf.
    assert (Hc' : holds consistent (group_display_creation_thread sys s)).
    { apply creation_scan_consistent; [exact Hcf |].
      intros a Ha. apply in_map. exact Ha. }
    destruct Hc' as (s1 & Hs1 & Hc1). rewrite Hpass in Hs1. inversion Hs1; subst s1.
    destruct (creation_scan_spawns sys _ _ _ Hpass) as (Hl & _ & Hnew).
    split; [exact (c_nodup s' Hc1) |]. split; [exact Hl |]. split; [exact Hnew |].
    intros Hok sys'.
    pose proof (creation_scan_flags_all sys _ _ _ Hok) as Hall.
    destruct (creation_scan_all_flagged sys' (alarm_list s') s') as (s'' & H1 & H2 & H3 & _).
    + rewrite Hl. exact Hall.
    + exists s''. auto.
Qed.

Lemma one_display_thread_per_group_witness :
  let sys : Z -> spawn_result := fun _ => thread_starts in
  holds (fun s =>
           NoDup (display_threads s) /\
           forall g, In g (display_threads s) <-> flag s g = Some 1)
        (run [main_reads true true 1000 (Start_Alarm 1 5 10 "a");
              creation_wakes sys;
              main_reads true true 1001 (Start_Alarm 2 5 5 "b");
              main_reads true true 1002 (Start_Alarm 3 7 5 "c");
              creation_wakes sys;
              removal_wakes;
              display_runs 5 (fun _ => 1011);
              creation_wakes sys]
           initial_state).
Proof.
  intros sys.
  refine (proj1 (one_display_thread_per_group _ _)).
  repeat constructor; unfold MAX_GROUPS; lia.
Defined.

(** ** What main checks before it inserts *)

(** A Start_Alarm request with a negative field is discarded. *)
Remark start_alarm_negative_discarded
    (insert_malloc_ok : bool) (now i g t : Z) (m : string) (s : state) :
  i < 0 \/ g < 0 \/ t < 0 ->
  main_iteration true insert_malloc_ok now (Start_Alarm i g t m) s
    = Ok (print invalid_request s).
Proof.
  intros H. unfold main_iteration. cbn [negb].
  destruct (Z.ltb_spec i 0); [reflexivity |].
  destruct (Z.ltb_spec g 0); [reflexivity |].
  destruct (Z.ltb_spec t 0); [reflexivity | lia].
Qed.

(** A Start_Alarm request without a negative field is inserted, however
    large its group id. *)
Remark start_alarm_inserted_for_any_group
    (now i g t : Z) (m : string) (s : state) :
  0 <= i -> 0 <= g -> 0 <= t ->
  exists s',
    main_iteration true true now (Start_Alarm i g t m) s = Ok s' /\
    In (mk_alarm t (now + t) (truncate_message m) i g) (alarm_list s').
Proof.
  intros Hi Hg Ht. unfold main_iteration. cbn [negb].
  destruct (Z.ltb_spec i 0); [lia |].
  destruct (Z.ltb_spec g 0); [lia |].
  destruct (Z.ltb_spec t 0); [lia |].
  eexists. split; [reflexivity |].
  simpl. apply in_insert_by_id. left. reflexivity.
Qed.

(** * Further properties of the code *)

(** ** Insertion adds one alarm and loses none *)

Lemma link_after_perm (new_alarm : alarm_t) (rest : list alarm_t) :
  link_after new_alarm rest ≡ₚ new_alarm :: rest.
Proof.
  induction rest as [|next rest' IH]; simpl; [reflexivity |].
  destruct (id next <? id new_alarm); [| reflexivity].
  rewrite IH. apply perm_swap.
Qed.

Lemma insert_by_id_perm (new_alarm : alarm_t) (l : list alarm_t) :
  insert_by_id new_alarm l ≡ₚ new_alarm :: l.
Proof.
  destruct l as [|head rest]; simpl; [reflexivity |].
  destruct (id head >? id new_alarm); [reflexivity |].
  rewrite link_after_perm. apply perm_swap.
Qed.

Lemma insert_by_time_perm (alarm : alarm_t) (l : list alarm_t) :
  insert_by_time alarm l ≡ₚ alarm :: l.
Proof.
  induction l as [|next rest IH]; simpl; [reflexivity |].
  destruct (time next >=? time alarm); [reflexivity |].
  rewrite IH. apply perm_swap.
Qed.

(** X1.  [insert_alarm] with a successful [malloc] leaves on the list
    exactly the alarms that were there plus the new one, whose time is
    the clock value plus its period; ids need not be new.  With a failed
    [malloc] the list is untouched and the error is the last line
    written.  In both cases the flags, the display threads,
    [current_alarm] and the condition variable are as before. *)
Theorem insert_alarm_adds_exactly_one
    (malloc_ok : bool) (now i g secs : Z) (m : string) (s : state) :
  let s' := insert_alarm malloc_ok now i g secs m s in
  (if malloc_ok
   then alarm_list s'
          ≡ₚ mk_alarm secs (now + secs) (truncate_message m) i g :: alarm_list s
   else alarm_list s' = alarm_list s /\ last_line s' = Some alloc_error) /\
  active_group_threads s' = active_group_threads s /\
  display_threads s' = display_threads s /\
  current_alarm s' = current_alarm s /\
  alarm_cond s' = alarm_cond s.
Proof.
  intros s'. subst s'. unfold insert_alarm. destruct malloc_ok; simpl.
  - split; [apply insert_by_id_perm | repeat split].
  - split; [| repeat split].
    split; [reflexivity |]. unfold last_line. simpl. apply last_snoc.
Qed.

(** ** Where alarm_insert puts an alarm *)

Lemma sorted_by_head_le (key : alarm_t -> Z) (x : alarm_t) (l : list alarm_t) :
  sorted_by key (x :: l) -> Forall (fun y => key x <= key y) l.
Proof.
  intros H. apply Sorted_extends in H; [exact H |].
  intros a b c Hab Hbc. lia.
Qed.

Lemma insert_by_time_sorted_split (alarm : alarm_t) (l : list alarm_t) :
  sorted_by time l ->
  exists l1 l2,
    l = l1 ++ l2 /\ insert_by_time alarm l = l1 ++ alarm :: l2 /\
    Forall (fun x => time x < time alarm) l1 /\
    Forall (fun x => time alarm <= time x) l2.
Proof.
  induction l as [|next rest IH]; intros Hs; simpl.
  - exists [], []. repeat split; constructor.
  - destruct (Z.geb_spec (time next) (time alarm)) as [Hge | Hlt].
    + exists [], (next :: rest). repeat split; [constructor |].
      constructor; [lia |].
      eapply Forall_impl; [exact (sorted_by_head_le time next rest Hs) |].
      simpl. intros y Hy. lia.
    + apply sorted_by_cons_inv in Hs as [Hrest _].
      destruct (IH Hrest) as (l1 & l2 & -> & -> & H1 & H2).
      exists (next :: l1), l2. repeat split; [| exact H2].
      constructor; assumption.
Qed.

(** X2.  On a list sorted by time, [alarm_insert] puts the alarm behind
    every alarm with an earlier time and in front of every alarm whose
    time is its own or later; the other alarms keep their order. *)
Theorem alarm_insert_position (alarm : alarm_t) (s : state) :
  sorted_by time (alarm_list s) ->
  exists l1 l2,
    alarm_list s = l1 ++ l2 /\
    alarm_list (alarm_insert alarm s) = l1 ++ alarm :: l2 /\
    Forall (fun x => time x < time alarm) l1 /\
    Forall (fun x => time alarm <= time x) l2.
Proof.
  intros Hs. rewrite alarm_list_alarm_insert.
  apply insert_by_time_sorted_split, Hs.
Qed.

Lemma alarm_insert_position_witness :
  let s := set_alarm_list
             [mk_alarm 5 1005 "a" 1 5; mk_alarm 10 1010 "b" 2 5;
              mk_alarm 20 1020 "c" 3 5] initial_state in
  exists l1 l2,
    alarm_list s = l1 ++ l2 /\
    alarm_list (alarm_insert (mk_alarm 9 1010 "n" 4 6) s)
      = l1 ++ mk_alarm 9 1010 "n" 4 6 :: l2 /\
    Forall (fun x => time x < 1010) l1 /\
    Forall (fun x => 1010 <= time x) l2.
Proof.
  intros s.
  apply (alarm_insert_position (mk_alarm 9 1010 "n" 4 6) s).
  repeat constructor; simpl; lia.
Defined.

(** ** The stored message *)

Lemma substring_0_length (n : nat) (m : string) :
  String.length (String.substring 0 n m) = Nat.min n (String.length m).
Proof.
  revert m. induction n as [|n IH]; intros m; destruct m as [|c m]; simpl;
    try reflexivity.
  rewrite IH. reflexivity.
Qed.

Lemma substring_0_prefix (n : nat) (m : string) :
  String.prefix (String.substring 0 n m) m = true.
Proof.
  revert m. induction n as [|n IH]; intros m; destruct m as [|c m]; simpl;
    try reflexivity.
  destruct (Ascii.ascii_dec c c) as [_ | Hne]; [apply IH | congruence].
Qed.

Lemma substring_0_all (n : nat) (m : string) :
  (String.length m <= n)%nat -> String.substring 0 n m = m.
Proof.
  revert m. induction n as [|n IH]; intros m Hlen; destruct m as [|c m];
    simpl in *; try reflexivity; [lia |].
  rewrite IH; [reflexivity | lia].
Qed.

(** X3.  The message [insert_alarm] stores is the longest prefix of the
    request's message that has at most 63 characters: it is never an
    error to pass a longer one, and a message of at most 63 characters is
    stored unchanged. *)
Theorem stored_message_is_truncated_prefix
    (now i g secs : Z) (m : string) (s : state) :
  let stored := truncate_message m in
  In (mk_alarm secs (now + secs) stored i g)
     (alarm_list (insert_alarm true now i g secs m s)) /\
  String.length stored = Nat.min 63 (String.length m) /\
  String.prefix stored m = true /\
  ((String.length m <= 63)%nat -> stored = m).
Proof.
  intros stored. subst stored. unfold truncate_message.
  split; [simpl; apply in_insert_by_id; left; reflexivity |].
  split; [apply substring_0_length |].
  split; [apply substring_0_prefix | apply substring_0_all].
Qed.

Lemma stored_message_is_truncated_prefix_witness :
  truncate_message "wake up" = "wake up"%string.
Proof.
  apply (proj2 (proj2 (proj2
           (stored_message_is_truncated_prefix 1000 1 5 10 "wake up" initial_state)))).
  simpl. lia.
Defined.

(** ** A display pass under any clock *)

Lemma display_scan_frame (group_id : Z) (clock : nat -> Z) (l : list alarm_t) :
  forall tick,
    Forall2 (fun a a' =>
               a' = a \/
               (groupId a = group_id /\
                exists k, time a <= clock k /\
                          a' = set_time (clock (k + 2)%nat + seconds a) a))
            l (fst (display_scan group_id clock tick l)) /\
    Forall (fun o => exists a, In a l /\ groupId a = group_id /\ o = printed_line a)
           (snd (display_scan group_id clock tick l)).
Proof.
  induction l as [|current link IH]; intros tick; simpl.
  - split; constructor.
  - assert (Hweaken : forall out,
              Forall (fun o => exists a, In a link /\ groupId a = group_id /\
                                         o = printed_line a) out ->
              Forall (fun o => exists a, (current = a \/ In a link) /\
                                         groupId a = group_id /\
                                         o = printed_line a) out).
    { intros out H. eapply Forall_impl; [exact H |].
      simpl. intros o (a & Ha & Hg & Ho). exists a. auto. }
    destruct (Z.eqb_spec (groupId current) group_id) as [Hg | Hg].
    + destruct (Z.geb_spec (clock tick) (time current)) as [Hdue | Hnot].
      * destruct (IH (tick + 3)%nat) as [H1 H2].
        destruct (display_scan group_id clock (tick + 3) link). simpl in *.
        split.
        -- constructor; [| exact H1]. right. split; [exact Hg |].
           exists tick. split; [lia | reflexivity].
        -- constructor; [| exact (Hweaken _ H2)].
           exists current. auto.
      * destruct (IH (tick + 1)%nat) as [H1 H2].
        destruct (display_scan group_id clock (tick + 1) link). simpl in *.
        split; [constructor; [left; reflexivity | exact H1] | exact (Hweaken _ H2)].
    + destruct (IH tick) as [H1 H2].
      destruct (display_scan group_id clock tick link). simpl in *.
      split; [constructor; [left; reflexivity | exact H1] | exact (Hweaken _ H2)].
Qed.

Lemma display_scan_same_but_time (group_id : Z) (clock : nat -> Z)
    (tick : nat) (l : list alarm_t) :
  Forall2 same_but_time l (fst (display_scan group_id clock tick l)).
Proof.
  eapply Forall2_impl; [exact (proj1 (display_scan_frame group_id clock l tick)) |].
  simpl. intros a a' [-> | (_ & k & _ & ->)]; unfold same_but_time; simpl; auto.
Qed.

Lemma alarm_list_display_alarm_thread (group_id : Z) (clock : nat -> Z) (s : state) :
  alarm_list (display_alarm_thread group_id clock s)
  = fst (display_scan group_id clock 0 (alarm_list s)).
Proof.
  unfold display_alarm_thread.
  destruct (display_scan group_id clock 0 (alarm_list s)). reflexivity.
Qed.

(** X4.  Whatever the clock does during a pass, the display thread of a
    group changes nothing but the [time] of alarms of its own group, and
    only to a clock reading plus the alarm's period, taken after a reading
    that had reached the alarm's time; it prints only alarms of its own
    group; it never touches the flags, [current_alarm], the set of
    display threads or the condition variable. *)
Theorem display_pass_frame (group_id : Z) (clock : nat -> Z) (s : state) :
  let s' := display_alarm_thread group_id clock s in
  Forall2 (fun a a' =>
             a' = a \/
             (groupId a = group_id /\
              exists k, time a <= clock k /\
                        a' = set_time (clock (k + 2)%nat + seconds a) a))
          (alarm_list s) (alarm_list s') /\
  (exists out,
     console s' = console s ++ out /\
     Forall (fun o => exists a, In a (alarm_list s) /\ groupId a = group_id /\
                                o = printed_line a) out) /\
  active_group_threads s' = active_group_threads s /\
  current_alarm s' = current_alarm s /\
  display_threads s' = display_threads s /\
  alarm_cond s' = alarm_cond s.
Proof.
  intros s'. subst s'.
  destruct (display_scan_frame group_id clock (alarm_list s) 0) as [H1 H2].
  unfold display_alarm_thread.
  destruct (display_scan group_id clock 0 (alarm_list s)) as [l' out]. simpl in *.
  split; [exact H1 |]. split; [exists out; auto | repeat split].
Qed.

(** ** What one step of the program does to the shared state *)

Lemma removal_sweep_final (ids marks : list Z) :
  forall s s' : state,
    final (removal_sweep ids marks s) = Some s' ->
    removal_sweep ids marks s = Ok s' /\ current_alarm s' = current_alarm s.
Proof.
  induction ids as [|g ids IH]; intros s s' H; simpl in *.
  - inversion H. auto.
  - destruct (array_get (active_group_threads s) g) as [v|]; [| discriminate H].
    destruct (array_get marks g) as [m|]; [| discriminate H].
    destruct ((v =? 1) && (m =? 0)).
    + destruct (array_set (active_group_threads s) g 0) as [flags|]; [| discriminate H].
      apply IH in H. exact H.
    + apply IH in H. exact H.
Qed.

Lemma removal_final (s s' : state) :
  final (group_display_removal_thread s) = Some s' ->
  group_display_removal_thread s = Ok s' /\ current_alarm s' = current_alarm s.
Proof.
  unfold group_display_removal_thread.
  destruct (mark_groups (alarm_list s) _) as [marks|]; [| discriminate].
  apply removal_sweep_final.
Qed.

Lemma creation_scan_untouched (sys : Z -> spawn_result) (l : list alarm_t) :
  forall s s' : state,
    final (creation_scan sys l s) = Some s' ->
    current_alarm s' = current_alarm s /\ alarm_cond s' = alarm_cond s.
Proof.
  induction l as [|current link IH]; intros s s' H; cbn [creation_scan] in H.
  - inversion H. auto.
  - destruct (array_get (active_group_threads s) (groupId current)) as [v|];
      [| discriminate H].
    destruct (v =? 0).
    + destruct (sys (groupId current)); try (inversion H; subst; auto; fail).
      destruct (array_set (active_group_threads s) (groupId current) 1) as [flags|];
        [| discriminate H].
      apply IH in H. exact H.
    + apply IH in H. exact H.
Qed.

Lemma step_effect (e : event) (s s' : state) :
  final (step e s) = Some s' ->
  current_alarm s' = current_alarm s /\
  (alarm_cond s' = alarm_cond s \/
   alarm_cond s' = alarm_cond s ++ [pthread_cond_broadcast]) /\
  (alarm_list s' = alarm_list s \/
   (exists now i g t m,
      0 <= i /\ 0 <= g /\ 0 <= t /\
      alarm_list s'
        = insert_by_id (mk_alarm t (now + t) (truncate_message m) i g) (alarm_list s)) \/
   (exists g clock,
      alarm_list s' = fst (display_scan g clock 0 (alarm_list s)))).
Proof.
  assert (Hsame : forall o, Some (print o s) = Some s' ->
            current_alarm s' = current_alarm s /\
            (alarm_cond s' = alarm_cond s \/
             alarm_cond s' = alarm_cond s ++ [pthread_cond_broadcast]) /\
            (alarm_list s' = alarm_list s \/
             (exists now i g t m,
                0 <= i /\ 0 <= g /\ 0 <= t /\
                alarm_list s'
                  = insert_by_id (mk_alarm t (now + t) (truncate_message m) i g)
                      (alarm_list s)) \/
             (exists g clock,
                alarm_list s' = fst (display_scan g clock 0 (alarm_list s))))).
  { intros o H. inversion H; subst. simpl. auto. }
  assert (Hkeep : Some s = Some s' ->
            current_alarm s' = current_alarm s /\
            (alarm_cond s' = alarm_cond s \/
             alarm_cond s' = alarm_cond s ++ [pthread_cond_broadcast]) /\
            (alarm_list s' = alarm_list s \/
             (exists now i g t m,
                0 <= i /\ 0 <= g /\ 0 <= t /\
                alarm_list s'
                  = insert_by_id (mk_alarm t (now + t) (truncate_message m) i g)
                      (alarm_list s)) \/
             (exists g clock,
                alarm_list s' = fst (display_scan g clock 0 (alarm_list s))))).
  { intros H. inversion H; subst. auto. }
  destruct e as [a_ok i_ok now r | sys | | group_id clock]; cbn [step].
  - destruct r as [i g t m | i g t m | i | i | i | | | |];
      unfold main_iteration; try (cbn [final]; exact Hkeep);
      destruct a_ok; cbn [negb final]; try exact Hkeep; try apply Hsame.
    + destruct (Z.ltb_spec i 0) as [_ | Hi]; cbn [orb]; [apply Hsame |].
      destruct (Z.ltb_spec g 0) as [_ | Hg]; cbn [orb]; [apply Hsame |].
      destruct (Z.ltb_spec t 0) as [_ | Ht]; cbn [orb]; [apply Hsame |].
      intros Hfin. inversion Hfin; subst. unfold insert_alarm.
      destruct i_ok; simpl.
      * split; [reflexivity |]. split; [right; reflexivity |].
        right. left. exists now, i, g, t, m. auto.
      * split; [reflexivity |]. split; [right; reflexivity |]. left. reflexivity.
    + destruct ((i <? 0) || (g <? 0) || (t <? 0)); apply Hsame.
    + destruct (i <? 0); apply Hsame.
    + destruct (i <? 0); apply Hsame.
    + destruct (i <? 0); apply Hsame.
    + destruct (view_sweep group_ids s) as [out|]; [| discriminate].
      intros H. inversion H; subst. simpl. auto.
  - intros H. unfold group_display_creation_thread in H.
    destruct (creation_scan_untouched _ _ _ _ H) as [Hc Hcond].
    destruct (creation_scan_spawns _ _ _ _ H) as (Hl & _).
    auto.
  - intros H. apply removal_final in H as [Hok Hc].
    apply removal_keeps_display_threads in Hok as (_ & Hcond & Hl). auto.
  - destruct (decide (group_id ∈ display_threads s)); cbn [final]; [| exact Hkeep].
    intros H. inversion H; subst.
    split; [| split].
    + unfold display_alarm_thread.
      destruct (display_scan group_id clock 0 (alarm_list s)). reflexivity.
    + left. unfold display_alarm_thread.
      destruct (display_scan group_id clock 0 (alarm_list s)). reflexivity.
    + right. right. exists group_id, clock. apply alarm_list_display_alarm_thread.
Qed.

Lemma run_invariant (P : state -> Prop) :
  (forall e s s', P s -> final (step e s) = Some s' -> P s') ->
  forall evs s s', P s -> final (run evs s) = Some s' -> P s'.
Proof.
  intros Hstep. induction evs as [|e evs IH]; intros s s' HP H; simpl in H.
  - inversion H; subst. exact HP.
  - destruct (step e s) as [s1 | st s1 | s1 |] eqn:He.
    + apply (IH s1); [| exact H]. apply (Hstep e s); [exact HP |]. rewrite He. reflexivity.
    + apply (Hstep e s); [exact HP |]. rewrite He. exact H.
    + apply (Hstep e s); [exact HP |]. rewrite He. exact H.
    + discriminate H.
Qed.

(** ** What holds of the list throughout a run *)


Lemma same_but_time_validated (l l' : list alarm_t) :
  Forall2 same_but_time l l' -> Forall validated l -> Forall validated l'.
Proof.
  induction 1 as [|a a' l l' (Hs & Hm & Hi & Hg) _ IH]; intros Hv; [constructor |].
  inversion Hv as [|? ? Ha Hl]; subst.
  constructor; [| exact (IH Hl)].
  unfold validated in *. rewrite Hs, Hm, Hi, Hg. exact Ha.
Qed.

Lemma sorted_by_map (key : alarm_t -> Z) (l : list alarm_t) :
  sorted_by key l <-> Sorted Z.le (map key l).
Proof.
  unfold sorted_by. induction l as [|a l IH]; simpl.
  - split; constructor.
  - split; intros H; inversion H as [|? ? Hs Hh]; subst;
      (constructor; [apply IH; exact Hs |]);
      destruct l; simpl in *; constructor; inversion Hh; subst; assumption.
Qed.

Lemma same_but_time_sorted_by_id (l l' : list alarm_t) :
  Forall2 same_but_time l l' -> sorted_by id l -> sorted_by id l'.
Proof.
  intros H Hs. apply sorted_by_map. apply sorted_by_map in Hs.
  replace (map id l') with (map id l); [exact Hs |].
  induction H as [|a a' l l' (_ & _ & Hi & _) _ IH]; simpl; [reflexivity |].
  rewrite Hi. f_equal. apply IH.
  apply sorted_by_map. apply sorted_by_map in Hs.
  apply sorted_by_cons_inv in Hs. tauto.
Qed.

Lemma truncate_message_length (m : string) :
  (String.length (truncate_message m) <= 63)%nat.
Proof. unfold truncate_message. rewrite substring_0_length. lia. Qed.

(** X5.  Every alarm that is on the list at any point of a run of the
    program has a non-negative id, group id and period and a message of
    at most 63 characters. *)
Theorem listed_alarms_are_validated (evs : list event) (s' : state) :
  final (run evs initial_state) = Some s' ->
  Forall validated (alarm_list s').
Proof.
  apply (run_invariant (fun s => Forall validated (alarm_list s))); [| constructor].
  intros e s s1 HP Hfin.
  destruct (step_effect e s s1 Hfin) as (_ & _ & [Hl | [Hl | Hl]]).
  - rewrite Hl. exact HP.
  - destruct Hl as (now & i & g & t & m & Hi & Hg & Ht & ->).
    apply List.Forall_forall. intros a Ha.
    apply in_insert_by_id in Ha as [-> | Ha].
    + unfold validated. simpl. pose proof (truncate_message_length m). auto.
    + exact (proj1 (List.Forall_forall _ _) HP a Ha).
  - destruct Hl as (g & clock & ->).
    exact (same_but_time_validated _ _ (display_scan_same_but_time g clock 0 _) HP).
Qed.

Lemma listed_alarms_are_validated_witness :
  exists s',
    final (run sample_events initial_state) = Some s' /\
    length (alarm_list s') = 3%nat /\
    Forall validated (alarm_list s').
Proof.
  eexists. split; [vm_compute; reflexivity |]. split; [reflexivity |].
  apply (listed_alarms_are_validated sample_events). vm_compute. reflexivity.
Defined.

(** X6.  At every point of a run of the program the list is sorted
    ascending by id: the passes of the display threads, which rewrite
    [time], and of the two group threads do not disturb the order
    [insert_alarm] establishes. *)
Theorem list_sorted_by_id_throughout (evs : list event) (s' : state) :
  final (run evs initial_state) = Some s' ->
  sorted_by id (alarm_list s').
Proof.
  apply (run_invariant (fun s => sorted_by id (alarm_list s))); [| constructor].
  intros e s s1 HP Hfin.
  destruct (step_effect e s s1 Hfin) as (_ & _ & [Hl | [Hl | Hl]]).
  - rewrite Hl. exact HP.
  - destruct Hl as (now & i & g & t & m & _ & _ & _ & ->).
    apply insert_by_id_sorted, HP.
  - destruct Hl as (g & clock & ->).
    exact (same_but_time_sorted_by_id _ _ (display_scan_same_but_time g clock 0 _) HP).
Qed.

Lemma list_sorted_by_id_throughout_witness :
  exists s',
    final (run sample_events initial_state) = Some s' /\
    map id (alarm_list s') = [2; 3; 7] /\
    sorted_by id (alarm_list s').
Proof.
  eexists. split; [vm_compute; reflexivity |]. split; [reflexivity |].
  apply (list_sorted_by_id_throughout sample_events). vm_compute. reflexivity.
Defined.



(** X8.  In a run of the program as [main] starts it, [current_alarm]
    stays 0 and [alarm_cond] is only ever broadcast, never signalled. *)
Theorem program_only_broadcasts (evs : list event) (s' : state) :
  final (run evs initial_state) = Some s' ->
  current_alarm s' = 0 /\
  Forall (fun op => op = pthread_cond_broadcast) (alarm_cond s').
Proof.
  apply (run_invariant
           (fun s => current_alarm s = 0 /\
                     Forall (fun op => op = pthread_cond_broadcast) (alarm_cond s)));
    [| split; [reflexivity | constructor]].
  intros e s s1 [Hc Hb] Hfin.
  destruct (step_effect e s s1 Hfin) as (Hc1 & [Hcond | Hcond] & _).
  - rewrite Hc1, Hcond. auto.
  - rewrite Hc1, Hcond. split; [exact Hc |].
    apply Forall_app. split; [exact Hb | repeat constructor].
Qed.

Lemma program_only_broadcasts_witness :
  exists s',
    final (run sample_events initial_state) = Some s' /\
    current_alarm s' = 0 /\
    Forall (fun op => op = pthread_cond_broadcast) (alarm_cond s').
Proof.
  eexists. split; [vm_compute; reflexivity |].
  apply (program_only_broadcasts sample_events). vm_compute. reflexivity.
Defined.

(** ** Repeated display passes *)

Lemma reschedule_not_due (group_id now : Z) (a : alarm_t) :
  (groupId a = group_id -> 0 < seconds a) ->
  due group_id now (reschedule group_id now a) = false.
Proof.
  intros Hpos. unfold reschedule.
  destruct (due group_id now a) eqn:Hdue; [| exact Hdue].
  unfold due in *. simpl.
  apply andb_true_iff in Hdue as [Hg _]. rewrite Hg. simpl.
  apply Z.eqb_eq in Hg. specialize (Hpos Hg).
  destruct (Z.geb_spec now (now + seconds a)); [lia | reflexivity].
Qed.

(** X9.  When every alarm of the group has a positive period, a second
    pass of the group's display thread at the same clock value prints
    nothing and changes no alarm: an alarm is printed once per period,
    not once per pass. *)
Theorem display_second_pass_is_silent
    (group_id now : Z) (clock : nat -> Z) (s : state) :
  (forall k, clock k = now) ->
  Forall (fun a => groupId a = group_id -> 0 < seconds a) (alarm_list s) ->
  let s1 := display_alarm_thread group_id clock s in
  let s2 := display_alarm_thread group_id clock s1 in
  console s2 = console s1 /\ alarm_list s2 = alarm_list s1.
Proof.
  intros Hclock Hpos s1 s2. subst s1 s2. unfold display_alarm_thread.
  rewrite (display_scan_constant_clock group_id now clock 0 (alarm_list s) Hclock).
  cbn [alarm_list console].
  rewrite (display_scan_constant_clock group_id now clock 0 _ Hclock).
  cbn [alarm_list console].
  assert (Hnone : forall l,
            Forall (fun a => groupId a = group_id -> 0 < seconds a) l ->
            List.filter (due group_id now) (map (reschedule group_id now) l) = [] /\
            map (reschedule group_id now) (map (reschedule group_id now) l)
            = map (reschedule group_id now) l).
  { induction 1 as [|a l Ha _ [IH1 IH2]]; simpl; [split; reflexivity |].
    pose proof (reschedule_not_due group_id now a Ha) as Hnd.
    rewrite Hnd, IH1, IH2. split; [reflexivity |].
    f_equal. unfold reschedule at 1. rewrite Hnd. reflexivity. }
  destruct (Hnone _ Hpos) as [H1 H2]. rewrite H1, H2. simpl.
  rewrite app_nil_r. split; reflexivity.
Qed.

Lemma display_second_pass_is_silent_witness :
  let s := set_alarm_list
             [mk_alarm 10 1010 "a" 1 5; mk_alarm 5 1005 "b" 2 5; mk_alarm 0 1000 "c" 3 6]
             initial_state in
  let s1 := display_alarm_thread 5 (fun _ => 1011) s in
  let s2 := display_alarm_thread 5 (fun _ => 1011) s1 in
  console s2 = console s1 /\ alarm_list s2 = alarm_list s1.
Proof.
  intros s.
  apply (display_second_pass_is_silent 5 1011 (fun _ => 1011) s).
  - intros k. reflexivity.
  - repeat constructor; simpl; lia.
Defined.

(** X10.  An alarm with period 0 that is due is printed by the pass of
    its group's display thread and is due again afterwards, at the same
    clock value and at any later one: it is printed on every pass. *)
Theorem zero_period_alarm_is_printed_every_pass
    (group_id now now' : Z) (clock : nat -> Z) (s : state) (a : alarm_t) :
  (forall k, clock k = now) ->
  In a (alarm_list s) ->
  groupId a = group_id -> seconds a = 0 -> time a <= now -> now <= now' ->
  let s' := display_alarm_thread group_id clock s in
  (exists out, console s' = console s ++ out /\ In (printed_line a) out) /\
  exists a',
    In a' (alarm_list s') /\ groupId a' = group_id /\ seconds a' = 0 /\
    time a' <= now' /\ printed_line a' = printed_line a.
Proof.
  intros Hclock Hin Hg Hs Ht Hnow s'. subst s'. unfold display_alarm_thread.
  rewrite (display_scan_constant_clock group_id now clock 0 (alarm_list s) Hclock).
  cbn [alarm_list console].
  assert (Hdue : due group_id now a = true).
  { unfold due. apply andb_true_iff. split; [apply Z.eqb_eq, Hg |].
    destruct (Z.geb_spec now (time a)); [reflexivity | lia]. }
  split.
  - eexists. split; [reflexivity |].
    apply in_map. apply filter_In. split; assumption.
  - exists (reschedule group_id now a).
    split; [apply in_map; exact Hin |].
    unfold reschedule. rewrite Hdue. simpl. repeat split; try assumption. lia.
Qed.

Lemma zero_period_alarm_is_printed_every_pass_witness :
  let s := set_alarm_list [mk_alarm 0 1000 "c" 3 6] initial_state in
  let s' := display_alarm_thread 6 (fun _ => 1001) s in
  (exists out, console s' = console s ++ out /\ In (alarm_printed 3 6 0 "c") out) /\
  exists a',
    In a' (alarm_list s') /\ groupId a' = 6 /\ seconds a' = 0 /\
    time a' <= 1002 /\ printed_line a' = alarm_printed 3 6 0 "c".
Proof.
  intros s.
  apply (zero_period_alarm_is_printed_every_pass 6 1001 1002 (fun _ => 1001) s
           (mk_alarm 0 1000 "c" 3 6)).
  - intros k. reflexivity.
  - left. reflexivity.
  - reflexivity.
  - reflexivity.
  - simpl. lia.
  - lia.
Defined.

(** ** The alarm thread on its own *)

Lemma alarm_thread_step_conserves (status : wait_status) (now : Z)
    (st : alarm_thread_pc * state) :
  exists fired,
    console (snd (alarm_thread_step status now st))
      = console (snd st) ++ map expired_line fired /\
    pending st ≡ₚ fired ++ pending (alarm_thread_step status now st).
Proof.
  destruct st as [pc s]. destruct pc as [| |alarm]; simpl.
  - destruct (take_head_in_order now (set_current_alarm 0 s)) as (f & Hc & Hp & _).
    exists f. split; [exact Hc |]. unfold pending at 1. simpl in *. rewrite Hp at 1.
    reflexivity.
  - destruct (take_head_in_order now s) as (f & Hc & Hp & _).
    exists f. split; [exact Hc |]. unfold pending at 1. simpl in *. rewrite Hp at 1.
    reflexivity.
  - destruct status.
    + destruct (current_alarm s =? time alarm).
      * exists []. simpl. rewrite app_nil_r. split; reflexivity.
      * exists []. simpl. rewrite console_alarm_insert, app_nil_r.
        split; [reflexivity |]. unfold pending. simpl.
        rewrite alarm_list_alarm_insert, insert_by_time_perm. reflexivity.
    + exists [alarm]. split; reflexivity.
Qed.

(** X11.  The alarm thread neither loses nor duplicates an alarm:
    whatever the wake-ups and clock values, the alarms it has reported
    together with those it still holds or that are still on the list are,
    up to order, the alarms that were pending at the start; it writes
    nothing but reports of alarms. *)
Theorem alarm_thread_conserves_alarms (evs : list (wait_status * Z))
    (st : alarm_thread_pc * state) :
  exists fired,
    console (snd (alarm_thread_run evs st))
      = console (snd st) ++ map expired_line fired /\
    pending st ≡ₚ fired ++ pending (alarm_thread_run evs st).
Proof.
  revert st. induction evs as [|[status now] evs IH]; intros st; simpl.
  - exists []. simpl. rewrite app_nil_r. split; reflexivity.
  - destruct (alarm_thread_step_conserves status now st) as (f1 & Hc1 & Hp1).
    destruct (IH (alarm_thread_step status now st)) as (f2 & Hc2 & Hp2).
    exists (f1 ++ f2). rewrite Hc2, Hc1, map_app, app_assoc.
    split; [reflexivity |]. rewrite Hp1, Hp2, app_assoc. reflexivity.
Qed.

Lemma sorted_by_app (key : alarm_t -> Z) (l1 l2 : list alarm_t) :
  sorted_by key (l1 ++ l2) -> sorted_by key l1 /\ sorted_by key l2.
Proof.
  induction l1 as [|a l1 IH]; simpl; intros H.
  - split; [constructor | exact H].
  - apply sorted_by_cons_inv in H as [Hs Hh]. destruct (IH Hs) as [H1 H2].
    split; [| exact H2]. apply sorted_by_cons; [exact H1 |].
    destruct l1; simpl in *; [constructor |].
    inversion Hh; subst. constructor. assumption.
Qed.

(** X12.  As long as nothing is inserted, an alarm thread whose pending
    alarms are sorted by time reports them in that order: what it has
    reported is an initial part of the pending alarms, with times in
    ascending order, and the rest is still pending, still sorted. *)
Theorem alarm_thread_reports_in_time_order (evs : list (wait_status * Z))
    (st : alarm_thread_pc * state) :
  waiting_on_current st ->
  sorted_by time (pending st) ->
  exists fired,
    console (snd (alarm_thread_run evs st))
      = console (snd st) ++ map expired_line fired /\
    pending st = fired ++ pending (alarm_thread_run evs st) /\
    sorted_by time fired /\
    sorted_by time (pending (alarm_thread_run evs st)).
Proof.
  intros Hw Hs.
  destruct (alarm_thread_run_in_order evs st Hw) as (fired & Hc & Hp).
  exists fired. split; [exact Hc |]. split; [exact Hp |].
  rewrite Hp in Hs. apply sorted_by_app. exact Hs.
Qed.

Lemma alarm_thread_reports_in_time_order_witness :
  let st := (loop_top,
             set_alarm_list
               [mk_alarm 5 1005 "a" 1 5; mk_alarm 10 1010 "b" 2 5;
                mk_alarm 20 1020 "c" 3 5] initial_state) in
  exists fired,
    console (snd (alarm_thread_run [(woken, 1000); (ETIMEDOUT, 1005); (woken, 1012)] st))
      = console (snd st) ++ map expired_line fired /\
    pending st
      = fired ++ pending (alarm_thread_run
                            [(woken, 1000); (ETIMEDOUT, 1005); (woken, 1012)] st) /\
    sorted_by time fired /\
    sorted_by time (pending (alarm_thread_run
                               [(woken, 1000); (ETIMEDOUT, 1005); (woken, 1012)] st)).
Proof.
  intros st.
  apply (alarm_thread_reports_in_time_order
           [(woken, 1000); (ETIMEDOUT, 1005); (woken, 1012)] st).
  - exact I.
  - repeat constructor; simpl; lia.
Defined.

Lemma alarm_thread_run_cons (status : wait_status) (now : Z)
    (evs : list (wait_status * Z)) (st : alarm_thread_pc * state) :
  alarm_thread_run ((status, now) :: evs) st
  = alarm_thread_run evs (alarm_thread_step status now st).
Proof. reflexivity. Qed.

Lemma alarm_thread_drains_list (status : wait_status) (now : Z) (l : list alarm_t) :
  forall s : state,
    alarm_list s = l ->
    Forall (fun a => time a <= now) l ->
    let st' := alarm_thread_run (repeat (status, now) (S (length l))) (loop_top, s) in
    fst st' = in_cond_wait /\
    alarm_list (snd st') = [] /\
    current_alarm (snd st') = 0 /\
    console (snd st') = console s ++ map expired_line l.
Proof.
  induction l as [|a l IH]; intros s Hl Hdue.
  - simpl. unfold take_head. simpl. rewrite Hl. simpl.
    rewrite app_nil_r. repeat split. exact Hl.
  - inversion Hdue as [|? ? Ha Hrest]; subst.
    assert (Hstep : alarm_thread_step status now (loop_top, s)
                    = (loop_top, print (expired_line a)
                                   (set_alarm_list l (set_current_alarm 0 s)))).
    { simpl. unfold take_head. simpl. rewrite Hl.
      destruct (Z.gtb_spec (time a) now); [lia | reflexivity]. }
    change (repeat (status, now) (S (length (a :: l))))
      with ((status, now) :: repeat (status, now) (S (length l))).
    rewrite alarm_thread_run_cons, Hstep.
    destruct (IH (print (expired_line a)
                    (set_alarm_list l (set_current_alarm 0 s))) eq_refl Hrest)
      as (H1 & H2 & H3 & H4).
    split; [exact H1 |]. split; [exact H2 |]. split; [exact H3 |].
    rewrite H4. simpl. rewrite <- app_assoc. reflexivity.
Qed.

(** X13.  Once the clock has reached the time of every alarm on the
    list, the alarm thread started at the top of its loop reports all of
    them in list order, one per iteration, without waiting, and then
    blocks in [pthread_cond_wait] with an empty list and [current_alarm]
    equal to 0. *)
Theorem alarm_thread_drains_overdue_list (status : wait_status) (now : Z) (s : state) :
  Forall (fun a => time a <= now) (alarm_list s) ->
  let st' := alarm_thread_run
               (repeat (status, now) (S (length (alarm_list s)))) (loop_top, s) in
  fst st' = in_cond_wait /\
  alarm_list (snd st') = [] /\
  current_alarm (snd st') = 0 /\
  console (snd st') = console s ++ map expired_line (alarm_list s).
Proof.
  intros Hdue. apply alarm_thread_drains_list; [reflexivity | exact Hdue].
Qed.

Lemma alarm_thread_drains_overdue_list_witness :
  let s := set_alarm_list [mk_alarm 10 1010 "b" 2 5; mk_alarm 5 1005 "a" 1 5]
             initial_state in
  let st' := alarm_thread_run (repeat (woken, 2000) 3) (loop_top, s) in
  fst st' = in_cond_wait /\
  alarm_list (snd st') = [] /\
  current_alarm (snd st') = 0 /\
  console (snd st') = [alarm_expired 10 "b"; alarm_expired 5 "a"].
Proof.
  intros s.
  apply (alarm_thread_drains_overdue_list woken 2000 s).
  repeat constructor; simpl; lia.
Defined.

(** ** What a pass of the removal thread clears *)

Lemma mark_groups_unmarked (l : list alarm_t) :
  forall (marks marks' : list Z) (g : Z),
    mark_groups l marks = Some marks' ->
    ~ In g (map groupId l) ->
    array_get marks' g = array_get marks g.
Proof.
  induction l as [|current link IH]; intros marks marks' g H Hnot; simpl in H.
  - inversion H. reflexivity.
  - destruct (array_set marks (groupId current) 1) as [marked|] eqn:Hset;
      [| discriminate H].
    rewrite (IH _ _ g H); [| intros Hin; apply Hnot; right; exact Hin].
    apply (array_get_set_other _ _ _ g 1 Hset).
    intros Heq. apply Hnot. left. exact Heq.
Qed.

Lemma array_get_zeros (g : Z) :
  0 <= g < MAX_GROUPS ->
  array_get (replicate (Z.to_nat MAX_GROUPS) 0) g = Some 0.
Proof.
  intros Hg. unfold array_get. rewrite decide_True by exact Hg.
  apply lookup_replicate_2. unfold MAX_GROUPS in *. lia.
Qed.

Lemma removal_sweep_exact (marks : list Z) (ids : list Z) :
  length marks = Z.to_nat MAX_GROUPS ->
  Forall (fun g => 0 <= g < MAX_GROUPS) ids ->
  forall s : state,
    well_sized s ->
    exists s',
      removal_sweep ids marks s = Ok s' /\
      well_sized s' /\
      forall g,
        (In g ids -> flag s g = Some 1 -> array_get marks g = Some 0 ->
         flag s' g = Some 0) /\
        (~ (In g ids /\ flag s g = Some 1 /\ array_get marks g = Some 0) ->
         flag s' g = flag s g).
Proof.
  intros Hlen. induction 1 as [|g0 ids Hg0 _ IH]; intros s Hsize; simpl.
  - exists s. split; [reflexivity |]. split; [exact Hsize |].
    intros g. split; [intros [] | reflexivity].
  - destruct (array_get_in_range _ g0 Hg0 Hsize) as [v Hv].
    destruct (array_get_in_range _ g0 Hg0 Hlen) as [m Hm].
    rewrite Hv, Hm.
    destruct (Z.eqb_spec v 1) as [-> | Hv1]; simpl;
      [destruct (Z.eqb_spec m 0) as [-> | Hm0] |].
    + pose proof (array_set_in_range _ g0 0 Hg0 Hsize) as Hset. rewrite Hset.
      destruct (IH (print (thread_removed g0)
                      (set_active_group_threads
                         (<[Z.to_nat g0 := 0]> (active_group_threads s)) s)))
        as (s' & Hrun & Hsize' & Hflags).
      { unfold well_sized. simpl. rewrite length_insert. exact Hsize. }
      exists s'. split; [exact Hrun |]. split; [exact Hsize' |].
      intros g. destruct (Hflags g) as [Hclear Hkeep].
      unfold flag in Hclear, Hkeep |- *. simpl in Hclear, Hkeep.
      destruct (decide (g0 = g)) as [<- | Hne].
      * rewrite (array_get_set_same _ _ _ 0 Hset) in Hkeep.
        split.
        -- intros _ _ _. apply Hkeep. intros (_ & Hone & _). discriminate Hone.
        -- intros Hnot. exfalso. apply Hnot. auto.
      * rewrite (array_get_set_other _ _ _ g 0 Hset Hne) in Hclear, Hkeep.
        split.
        -- intros [Heq | Hin]; [contradiction |]. apply Hclear. exact Hin.
        -- intros Hnot. apply Hkeep. intros (Hin & H1 & H2).
           apply Hnot. auto.
    + destruct (IH s Hsize) as (s' & Hrun & Hsize' & Hflags).
      exists s'. split; [exact Hrun |]. split; [exact Hsize' |].
      intros g. destruct (Hflags g) as [Hclear Hkeep]. split.
      * intros [<- | Hin] H1 H2; [| exact (Hclear Hin H1 H2)].
        rewrite Hm in H2. inversion H2. contradiction.
      * intros Hnot. apply Hkeep. intros (Hin & H1 & H2). apply Hnot. auto.
    + destruct (IH s Hsize) as (s' & Hrun & Hsize' & Hflags).
      exists s'. split; [exact Hrun |]. split; [exact Hsize' |].
      intros g. destruct (Hflags g) as [Hclear Hkeep]. split.
      * intros [<- | Hin] H1 H2; [| exact (Hclear Hin H1 H2)].
        unfold flag in H1. rewrite Hv in H1. inversion H1. contradiction.
      * intros Hnot. apply Hkeep. intros (Hin & H1 & H2). apply Hnot. auto.
Qed.

Lemma in_group_ids (g : Z) : 0 <= g < MAX_GROUPS -> In g group_ids.
Proof.
  intros Hg. unfold group_ids. apply in_map_iff. exists (Z.to_nat g).
  split; [lia |]. apply in_seq. unfold MAX_GROUPS in *. lia.
Qed.

Lemma flag_in_range (s : state) (g v : Z) :
  flag s g = Some v -> 0 <= g < MAX_GROUPS.
Proof.
  unfold flag, array_get.
  destruct (decide (0 <= g < MAX_GROUPS)); [auto | discriminate].
Qed.

(** X14.  In a state whose group ids index the flag array, a pass of the
    removal thread returns, sets to 0 exactly the flags that were 1 for a
    group with no alarm on the list, and leaves every other flag, the
    list and the display threads as they were; afterwards every group
    whose flag is 1 has an alarm, so a second pass changes no flag. *)
Theorem removal_pass_clears_exactly_orphans (s : state) :
  well_sized s ->
  Forall (fun g => 0 <= g < MAX_GROUPS) (groups s) ->
  exists s',
    group_display_removal_thread s = Ok s' /\
    alarm_list s' = alarm_list s /\
    display_threads s' = display_threads s /\
    (forall g, flag s g = Some 1 -> ~ In g (groups s) -> flag s' g = Some 0) /\
    (forall g, flag s g <> Some 1 \/ In g (groups s) -> flag s' g = flag s g) /\
    (forall g, flag s' g = Some 1 -> In g (groups s')).
Proof.
  intros Hsize Hrange.
  destruct (mark_groups_marks (alarm_list s) (replicate (Z.to_nat MAX_GROUPS) 0))
    as (marks & Hm & Hlen & Hone);
    [apply length_replicate | exact Hrange |].
  destruct (removal_sweep_exact marks group_ids Hlen group_ids_in_range s Hsize)
    as (s' & Hrun & _ & Hflags).
  assert (Hok : group_display_removal_thread s = Ok s')
    by (unfold group_display_removal_thread; rewrite Hm; exact Hrun).
  destruct (removal_keeps_display_threads s s' Hok) as (Hthr & _ & Hl).
  assert (Hclear : forall g, flag s g = Some 1 -> ~ In g (groups s) ->
                             flag s' g = Some 0).
  { intros g H1 Hnot. apply (proj1 (Hflags g)); [| exact H1 |].
    - apply in_group_ids. exact (flag_in_range s g 1 H1).
    - rewrite (mark_groups_unmarked _ _ _ g Hm Hnot).
      apply array_get_zeros. exact (flag_in_range s g 1 H1). }
  assert (Hkeep : forall g, flag s g <> Some 1 \/ In g (groups s) ->
                            flag s' g = flag s g).
  { intros g Hg. apply (proj2 (Hflags g)). intros (_ & H1 & H0).
    destruct Hg as [Hg | Hg]; [contradiction |].
    rewrite (Hone g (or_intror Hg)) in H0. discriminate H0. }
  exists s'. split; [exact Hok |]. split; [exact Hl |]. split; [exact Hthr |].
  split; [exact Hclear |]. split; [exact Hkeep |].
  intros g H1. unfold groups. rewrite Hl. fold (groups s).
  destruct (in_dec Z.eq_dec g (groups s)) as [Hin | Hnot]; [exact Hin |].
  destruct (decide (flag s g = Some 1)) as [Hs1 | Hs1].
  - rewrite (Hclear g Hs1 Hnot) in H1. discriminate H1.
  - rewrite (Hkeep g (or_introl Hs1)) in H1. contradiction.
Qed.

Lemma removal_pass_clears_exactly_orphans_witness :
  let s := set_active_group_threads
             (<[5%nat := 1]> (<[7%nat := 1]> (replicate 256 0)))
             (set_alarm_list [mk_alarm 10 1010 "a" 1 7] initial_state) in
  exists s',
    group_display_removal_thread s = Ok s' /\
    alarm_list s' = alarm_list s /\
    display_threads s' = display_threads s /\
    (forall g, flag s g = Some 1 -> ~ In g (groups s) -> flag s' g = Some 0) /\
    (forall g, flag s g <> Some 1 \/ In g (groups s) -> flag s' g = flag s g) /\
    (forall g, flag s' g = Some 1 -> In g (groups s')).
Proof.
  intros s.
  apply (removal_pass_clears_exactly_orphans s).
  - reflexivity.
  - repeat constructor; unfold MAX_GROUPS; simpl; lia.
Defined.

(** ** After a pass of the creation thread *)

Lemma creation_scan_flag_values (sys : Z -> spawn_result) (l : list alarm_t) :
  forall s s' : state,
    final (creation_scan sys l s) = Some s' ->
    forall g v, flag s' g = Some v -> flag s g = Some v \/ v = 1.
Proof.
  induction l as [|current link IH]; intros s s' H g v Hv; cbn [creation_scan] in H.
  - inversion H; subst. left. exact Hv.
  - destruct (array_get (active_group_threads s) (groupId current)) as [v0|];
      [| discriminate H].
    destruct (v0 =? 0).
    + destruct (sys (groupId current));
        try (inversion H; subst; left; exact Hv).
      destruct (array_set (active_group_threads s) (groupId current) 1)
        as [flags|] eqn:Hset; [| discriminate H].
      destruct (IH _ _ H g v Hv) as [Hold | Hone]; [| right; exact Hone].
      unfold flag in Hold. simpl in Hold.
      destruct (decide (groupId current = g)) as [<- | Hne].
      * rewrite (array_get_set_same _ _ _ 1 Hset) in Hold. inversion Hold. auto.
      * rewrite (array_get_set_other _ _ _ g 1 Hset Hne) in Hold. left. exact Hold.
    + exact (IH _ _ H g v Hv).
Qed.

Lemma main_iteration_flags (a_ok i_ok : bool) (now : Z) (r : request) (s s' : state) :
  final (main_iteration a_ok i_ok now r s) = Some s' ->
  active_group_threads s' = active_group_threads s.
Proof.
  intros H.
  destruct r as [i g t m | i g t m | i | i | i | | | |];
    unfold main_iteration in H;
    destruct a_ok; cbn [negb] in H;
    repeat match type of H with
           | final (if ?c then _ else _) = _ => destruct c
           | final (match ?x with Some _ => _ | None => _ end) = _ => destruct x
           end;
    try discriminate H; inversion H; subst; try reflexivity.
  unfold insert_alarm. destruct i_ok; reflexivity.
Qed.

Lemma step_flag_values (e : event) (s s' : state) :
  consistent s ->
  final (step e s) = Some s' ->
  forall g v, flag s' g = Some v -> flag s g = Some v \/ v = 1.
Proof.
  intros Hc H g v Hv.
  destruct e as [a_ok i_ok now r | sys | | group_id clock]; cbn [step] in H.
  - left. unfold flag in *. rewrite <- (main_iteration_flags _ _ _ _ _ _ H). exact Hv.
  - exact (creation_scan_flag_values _ _ _ _ H g v Hv).
  - rewrite (removal_nothing_to_remove s Hc) in H. inversion H; subst. left. exact Hv.
  - left. destruct (decide (group_id ∈ display_threads s)); inversion H; subst;
      [| exact Hv].
    unfold flag, display_alarm_thread in Hv.
    destruct (display_scan group_id clock 0 (alarm_list s)). exact Hv.
Qed.

Lemma run_consistent_binary (evs : list event) :
  Forall bounded evs ->
  forall s s' : state,
    consistent s -> binary_flags s ->
    final (run evs s) = Some s' ->
    consistent s' /\ binary_flags s'.
Proof.
  induction 1 as [|e evs He _ IH]; intros s s' Hc Hb H; simpl in H.
  - inversion H; subst. auto.
  - destruct (step_consistent e s Hc He) as (s1 & Hfin & Hc1).
    assert (Hb1 : binary_flags s1).
    { intros g v Hv.
      destruct (step_flag_values e s s1 Hc Hfin g v Hv) as [Hold | ->]; [| auto].
      exact (Hb g v Hold). }
    destruct (step e s) as [s2 | st s2 | s2 |]; simpl in Hfin;
      inversion Hfin; subst.
    + exact (IH s1 s' Hc1 Hb1 H).
    + inversion H; subst. auto.
    + inversion H; subst. auto.
Qed.

Lemma run_snoc (evs : list event) (e : event) :
  forall s0 s : state,
    run evs s0 = Ok s ->
    final (run (evs ++ [e]) s0) = final (step e s).
Proof.
  induction evs as [|e0 evs IH]; intros s0 s Hrun.
  - inversion Hrun; subst. cbn [app run]. destruct (step e s); reflexivity.
  - cbn [app run] in Hrun |- *.
    destruct (step e0 s0); try discriminate Hrun. apply IH. exact Hrun.
Qed.

Lemma initial_state_binary : binary_flags initial_state.
Proof.
  intros g v Hv. left.
  pose proof (flag_in_range _ _ _ Hv) as Hg.
  unfold flag, initial_state, active_group_threads in Hv.
  rewrite (array_get_zeros g Hg) in Hv. inversion Hv. reflexivity.
Qed.

(** X15.  In a run with every Start_Alarm group id below [MAX_GROUPS],
    after a pass of the creation thread that returns, the running display
    threads are, without repetition, exactly the groups that have an
    alarm on the list: one thread for each such group and none for any
    other. *)
Theorem creation_pass_covers_groups
    (evs : list event) (sys : Z -> spawn_result) (s s' : state) :
  Forall bounded evs ->
  run evs initial_state = Ok s ->
  group_display_creation_thread sys s = Ok s' ->
  NoDup (display_threads s') /\
  forall g, In g (display_threads s') <-> In g (groups s').
Proof.
  intros Hb Hrun Hpass.
  assert (Hbb : Forall bounded (evs ++ [creation_wakes sys]))
    by (apply Forall_app; split; [exact Hb | repeat constructor]).
  assert (Hfin : final (run (evs ++ [creation_wakes sys]) initial_state) = Some s').
  { rewrite (run_snoc evs (creation_wakes sys) _ _ Hrun). cbn [step].
    rewrite Hpass. reflexivity. }
  destruct (run_consistent_binary _ Hbb _ _ initial_state_consistent
              initial_state_binary Hfin) as [Hc Hbin].
  split; [exact (c_nodup s' Hc) |].
  intros g. rewrite (c_threads s' Hc g). split.
  - apply (c_backed s' Hc).
  - intros Hin. apply in_map_iff in Hin as (a & <- & Ha).
    pose proof (creation_scan_flags_all sys _ _ _ Hpass) as Hall.
    assert (Hfin' : final (creation_scan sys (alarm_list s) s) = Some s')
      by (unfold group_display_creation_thread in Hpass; rewrite Hpass; reflexivity).
    destruct (creation_scan_spawns sys _ _ _ Hfin') as (Hl & _).
    rewrite <- Hl in Hall.
    destruct (proj1 (List.Forall_forall _ _) Hall a Ha) as (v & Hv & Hnz).
    destruct (Hbin _ _ Hv) as [-> | ->]; [contradiction | exact Hv].
Qed.

Lemma creation_pass_covers_groups_witness :
  exists s s',
    run [main_reads true true 1000 (Start_Alarm 7 5 10 "a");
         main_reads true true 1001 (Start_Alarm 2 9 5 "b");
         main_reads true true 1002 (Start_Alarm 3 5 0 "c")] initial_state = Ok s /\
    group_display_creation_thread (fun _ => thread_starts) s = Ok s' /\
    display_threads s' = [9; 5] /\
    NoDup (display_threads s') /\
    forall g, In g (display_threads s') <-> In g (groups s').
Proof.
  do 2 eexists.
  split; [vm_compute; reflexivity |].
  split; [vm_compute; reflexivity |].
  split; [reflexivity |].
  eapply (creation_pass_covers_groups
            [main_reads true true 1000 (Start_Alarm 7 5 10 "a");
             main_reads true true 1001 (Start_Alarm 2 9 5 "b");
             main_reads true true 1002 (Start_Alarm 3 5 0 "c")]
            (fun _ => thread_starts)).
  - repeat constructor; unfold MAX_GROUPS; lia.
  - vm_compute. reflexivity.
  - vm_compute. reflexivity.
Defined.

(** ** View_Alarms *)

Lemma view_group_listing (group_id : Z) (l : list alarm_t) :
  forall n,
    view_group group_id n l
    = (view_listing group_id n l,
       n + Z.of_nat (length (List.filter (fun a => groupId a =? group_id) l))).
Proof.
  unfold view_listing.
  induction l as [|current link IH]; intros n; simpl.
  - f_equal. lia.
  - destruct (groupId current =? group_id); [| apply IH].
    rewrite IH. simpl. f_equal.
    + f_equal; [f_equal; lia |].
      apply imap_ext. intros k a _. simpl. f_equal. lia.
    + lia.
Qed.

Lemma view_sweep_blocks (s : state) (ids : list Z) :
  well_sized s ->
  Forall (fun g => 0 <= g < MAX_GROUPS) ids ->
  view_sweep ids s = Some (concat (map (view_block s) ids)).
Proof.
  intros Hsize. induction 1 as [|g ids Hg _ IH];
    cbn [view_sweep map concat]; [reflexivity |].
  destruct (array_get_in_range _ g Hg Hsize) as [v Hv]. rewrite Hv, IH.
  assert (Hblock : view_block s g
                   = if decide (Some v = Some 1) then
                       view_thread g
                         :: view_listing g 0 (alarm_list s)
                         ++ match List.filter (fun a => groupId a =? g) (alarm_list s) with
                            | [] => [view_no_alarms]
                            | _ :: _ => []
                            end
                     else [])
    by (unfold view_block, flag; rewrite Hv; reflexivity).
  rewrite Hblock.
  destruct (Z.eqb_spec v 1) as [-> | Hne].
  - rewrite decide_True by reflexivity.
    rewrite view_group_listing. cbn [app]. do 2 f_equal.
    rewrite <- app_assoc. do 2 f_equal.
    destruct (List.filter (fun a => groupId a =? g) (alarm_list s)); reflexivity.
  - rewrite decide_False by congruence. reflexivity.
Qed.

(** X16.  View_Alarms changes nothing but the terminal.  After its
    header it prints, for the group ids 0 to [MAX_GROUPS - 1] in ascending
    order whose flag is 1, the thread line followed by the alarms of the
    group in list order, numbered from 1, or by the "no alarms" line when
    the group has none. *)
Theorem view_alarms_output (insert_malloc_ok : bool) (now : Z) (s : state) :
  well_sized s ->
  main_iteration true insert_malloc_ok now View_Alarms s
  = Ok (print_all (view_header :: concat (map (view_block s) group_ids)) s).
Proof.
  intros Hsize. unfold main_iteration. cbn [negb].
  rewrite (view_sweep_blocks s group_ids Hsize group_ids_in_range). reflexivity.
Qed.

Lemma view_alarms_output_witness :
  exists s,
    run [main_reads true true 1000 (Start_Alarm 7 5 10 "a");
         main_reads true true 1001 (Start_Alarm 2 5 5 "b");
         creation_wakes (fun _ => thread_starts)] initial_state = Ok s /\
    view_block s 5 = [view_thread 5; view_alarm 1 2 "b"; view_alarm 2 7 "a"] /\
    main_iteration true true 1002 View_Alarms s
    = Ok (print_all (view_header :: concat (map (view_block s) group_ids)) s).
Proof.
  eexists. split; [vm_compute; reflexivity |]. split; [vm_compute; reflexivity |].
  apply view_alarms_output. reflexivity.
Defined.

Lemma view_block_lines (s : state) (g : Z) (o : output) :
  In o (view_block s g) ->
  flag s g = Some 1 /\
  (o = view_thread g \/
   (exists n i m, o = view_alarm n i m) \/
   (o = view_no_alarms /\ ~ In g (groups s))).
Proof.
  unfold view_block. destruct (decide (flag s g = Some 1)) as [Hf | Hf]; [| intros []].
  intros [<- | Hin]; [auto |]. split; [exact Hf |].
  apply in_app_iff in Hin as [Hin | Hin].
  - right. left. unfold view_listing in Hin.
    apply list_elem_of_In, elem_of_lookup_imap in Hin as (k & a & -> & _).
    eauto.
  - right. right.
    destruct (List.filter (fun a => groupId a =? g) (alarm_list s)) as [|a l] eqn:Hfil;
      [| destruct Hin].
    destruct Hin as [<- | []]. split; [reflexivity |].
    intros Hg. apply in_map_iff in Hg as (a & Ha & Hin).
    assert (Hmem : In a (List.filter (fun a => groupId a =? g) (alarm_list s)))
      by (apply filter_In; split; [exact Hin | apply Z.eqb_eq; exact Ha]).
    rewrite Hfil in Hmem. destruct Hmem.
Qed.

(** X17.  In a run with every Start_Alarm group id below [MAX_GROUPS],
    View_Alarms prints a thread line for exactly the groups that have a
    display thread, and never the "no alarms" line: every group it shows
    has an alarm. *)
Theorem view_shows_threads_with_alarms
    (evs : list event) (insert_malloc_ok : bool) (now : Z) (s : state) :
  Forall bounded evs ->
  run evs initial_state = Ok s ->
  exists out,
    main_iteration true insert_malloc_ok now View_Alarms s
      = Ok (print_all (view_header :: out) s) /\
    ~ In view_no_alarms out /\
    forall g, In (view_thread g) out <-> In g (display_threads s).
Proof.
  intros Hb Hrun.
  destruct (run_consistent evs initial_state initial_state_consistent Hb)
    as (s0 & Hfin & Hc).
  rewrite Hrun in Hfin. inversion Hfin; subst s0.
  exists (concat (map (view_block s) group_ids)).
  split; [| split].
  - unfold main_iteration. cbn [negb].
    rewrite (view_sweep_blocks s group_ids (c_size s Hc) group_ids_in_range).
    reflexivity.
  - intros Hin. apply in_concat in Hin as (block & Hblock & Ho).
    apply in_map_iff in Hblock as (g & <- & _).
    apply view_block_lines in Ho as (Hf & [Ho | [(n & i & m & Ho) | (_ & Hnot)]]);
      try discriminate Ho.
    apply Hnot. exact (c_backed s Hc g Hf).
  - intros g. rewrite (c_threads s Hc g). split.
    + intros Hin. apply in_concat in Hin as (block & Hblock & Ho).
      apply in_map_iff in Hblock as (g' & <- & _).
      apply view_block_lines in Ho as (Hf & [Ho | [(n & i & m & Ho) | (Ho & _)]]);
        try discriminate Ho.
      inversion Ho; subst. exact Hf.
    + intros Hf. apply in_concat. exists (view_block s g). split.
      * apply in_map. apply in_group_ids. exact (flag_in_range s g 1 Hf).
      * unfold view_block. rewrite decide_True by exact Hf. left. reflexivity.
Qed.

Lemma view_shows_threads_with_alarms_witness :
  exists s out,
    run sample_events initial_state = Ok s /\
    main_iteration true true 1013 View_Alarms s
      = Ok (print_all (view_header :: out) s) /\
    ~ In view_no_alarms out /\
    forall g, In (view_thread g) out <-> In g (display_threads s).
Proof.
  eexists.
  assert (Hrun : run sample_events initial_state = Ok ?[s]) by (vm_compute; reflexivity).
  destruct (view_shows_threads_with_alarms sample_events true 1013 _
              ltac:(repeat constructor; unfold MAX_GROUPS; lia) Hrun)
    as (out & Hout).
  exists out. split; [exact Hrun | exact Hout].
Defined.

(** ** Where insert_alarm puts an alarm *)




(** ** What the removal thread does about a display thread *)






(** ** An insertion that does not reach the alarm thread *)

